(** * Revenue-leakage detection tools (agents/tools.py)

    A shallow embedding of the four detectors of [agents/tools.py]
    ([compare_rates], [detect_missing_charges], [detect_duplicate_entries],
    [detect_usage_mismatches]) and the properties the specification states
    about them.

    Numbers are the ones the Python code computes with: rates and charges are
    binary64 floats (Rocq's primitive floats), quantities and identifiers are
    unbounded integers, dictionaries are finite maps, and reports are strings. *)

From Stdlib Require Import ZArith Ascii String Floats.
From stdpp Require Import base numbers list strings pretty gmap sets sorting.

Set Warnings "-inexact-float".

Local Open Scope Z_scope.

(** ** Python numbers *)

(** [float(z)]: the binary64 value nearest to the integer [z] (ties to even). *)
Definition float_of_int (z : Z) : float :=
  SF2Prim (binary_normalize prec emax z 0 false).

Definition exact_int (z : Z) : spec_float :=
  match z with
  | Z0 => S754_zero false
  | Zpos p => S754_finite false p 0
  | Zneg p => S754_finite true p 0
  end.

(** [a / b] on two Python integers: the correctly rounded quotient.  The
    detectors only divide by a strictly positive integer. *)
Definition int_truediv (a b : Z) : float :=
  SF2Prim (SFdiv prec emax (exact_int a) (exact_int b)).

(** [is_nan x] is [x != x]. *)
Definition is_nan (x : float) : bool := negb (x =? x)%float.

(** ** Python string formatting *)

Definition NL : string := String "010"%char "".

Definition sign_prefix (s : bool) : string := if s then "-" else "".

Definition pad2 (n : Z) : string :=
  if n <? 10 then "0" +:+ pretty n else pretty n.

Definition round_half_even (num den : Z) : Z :=
  let q := num / den in
  match 2 * (num mod den) ?= den with
  | Lt => q
  | Gt => q + 1
  | Eq => if Z.even q then q else q + 1
  end.

(** [m * 2^e * 100] rounded to an integer, half to even. *)
Definition hundredths (m : positive) (e : Z) : Z :=
  if 0 <=? e then Zpos m * 2 ^ e * 100
  else round_half_even (Zpos m * 100) (2 ^ (- e)).

(** The format specification [:.2f]. *)
Definition format_2f (x : float) : string :=
  match Prim2SF x with
  | S754_nan => "nan"
  | S754_infinity s => sign_prefix s +:+ "inf"
  | S754_zero s => sign_prefix s +:+ "0.00"
  | S754_finite s m e =>
      let n := hundredths m e in
      sign_prefix s +:+ pretty (n / 100) +:+ "." +:+ pad2 (n mod 100)
  end.

(** Exact comparison of [a * 2^e] with [d * 10^k]. *)
Definition cmp_bin_dec (a e d k : Z) : comparison :=
  a * 2 ^ Z.max e 0 * 10 ^ Z.max (- k) 0 ?= d * 10 ^ Z.max k 0 * 2 ^ Z.max (- e) 0.

(** The integer part of [a * 2^e / 10^k]. *)
Definition floor_bin_dec (a e k : Z) : Z :=
  (a * 2 ^ Z.max e 0 * 10 ^ Z.max (- k) 0) / (10 ^ Z.max k 0 * 2 ^ Z.max (- e) 0).

(** The [E] with [10^E <= m * 2^e < 10^(E+1)]. *)
Definition decimal_exponent (m e : Z) : Z :=
  let est := ((Z.log2 m + e) * 30103) / 100000 in
  let est := if cmp_bin_dec m e 1 est is Lt then est - 1 else est in
  let est := if cmp_bin_dec m e 1 est is Lt then est - 1 else est in
  let est := if cmp_bin_dec m e 1 (est + 1) is Lt then est else est + 1 in
  if cmp_bin_dec m e 1 (est + 1) is Lt then est else est + 1.

(** Does the decimal [d * 10^k] read back as the float [m * 2^e]? *)
Definition in_round_interval (m e d k : Z) : bool :=
  let closed := Z.even m in
  let above_low :=
    let c := if (m =? 2 ^ 52) && (-1074 <? e)
             then cmp_bin_dec (4 * m - 1) (e - 2) d k
             else cmp_bin_dec (2 * m - 1) (e - 1) d k in
    match c with Lt => true | Eq => closed | Gt => false end in
  let below_high :=
    match cmp_bin_dec (2 * m + 1) (e - 1) d k with
    | Gt => true | Eq => closed | Lt => false end in
  above_low && below_high.

Definition shortest_candidate (m e E : Z) (n : nat) : option (Z * Z) :=
  let k := E - Z.of_nat n + 1 in
  let lo := floor_bin_dec m e k in
  let hi := lo + 1 in
  match in_round_interval m e lo k, in_round_interval m e hi k with
  | true, true =>
      match cmp_bin_dec (2 * m) e (lo + hi) k with
      | Gt => Some (hi, k)
      | Lt => Some (lo, k)
      | Eq => Some (if Z.even lo then lo else hi, k)
      end
  | true, false => Some (lo, k)
  | false, true => Some (hi, k)
  | false, false => None
  end.

Fixpoint shortest_search (m e E : Z) (n : nat) (fuel : nat) : Z * Z :=
  match fuel with
  | O => (floor_bin_dec m e (E - 16), E - 16)
  | S fuel =>
      match shortest_candidate m e E n with
      | Some r => r
      | None => shortest_search m e E (S n) fuel
      end
  end.

Fixpoint strip_zeros (fuel : nat) (d k : Z) : Z * Z :=
  match fuel with
  | O => (d, k)
  | S fuel =>
      if (d mod 10 =? 0) && (0 <? d) then strip_zeros fuel (d / 10) (k + 1)
      else (d, k)
  end.

(** The shortest digit string that reads back as [m * 2^e], and the position
    of its decimal point. *)
Definition shortest_digits (m : positive) (e : Z) : string * Z :=
  let E := decimal_exponent (Zpos m) e in
  let '(d, k) := shortest_search (Zpos m) e E 1 17 in
  let '(d, k) := strip_zeros 20 d k in
  let ds := pretty d in
  (ds, Z.of_nat (String.length ds) + k).

Fixpoint zeros (n : nat) : string :=
  match n with O => "" | S n => "0" +:+ zeros n end.

Definition repr_finite (ds : string) (decpt : Z) : string :=
  let len := Z.of_nat (String.length ds) in
  if (-4 <? decpt) && (decpt <=? 16) then
    if decpt <=? 0 then "0." +:+ zeros (Z.to_nat (- decpt)) +:+ ds
    else if len <=? decpt then ds +:+ zeros (Z.to_nat (decpt - len)) +:+ ".0"
    else String.substring 0 (Z.to_nat decpt) ds +:+ "." +:+
         String.substring (Z.to_nat decpt) (Z.to_nat (len - decpt)) ds
  else
    let ex := decpt - 1 in
    String.substring 0 1 ds +:+
    (if 1 <? len then "." +:+ String.substring 1 (Z.to_nat (len - 1)) ds else "") +:+
    "e" +:+ (if ex <? 0 then "-" else "+") +:+ pad2 (Z.abs ex).

(** [str(x)] of a float, as an f-string field [{x}] renders it. *)
Definition float_repr (x : float) : string :=
  match Prim2SF x with
  | S754_nan => "nan"
  | S754_infinity s => sign_prefix s +:+ "inf"
  | S754_zero s => sign_prefix s +:+ "0.0"
  | S754_finite s m e =>
      let '(ds, decpt) := shortest_digits m e in
      sign_prefix s +:+ repr_finite ds decpt
  end.

(** [report += line] for each line in turn. *)
Definition append_all (report : string) (lines : list string) : string :=
  foldl String.append report lines.

(** ** Records *)

(** The join key [(customer_id, service_type)]. *)
Abbreviation key := (string * string)%type.

Module Contract.
Record t := mk {
    contract_id : Z;
    customer_id : string;
    service_type : string;
    agreed_rate : float;
    start_date : string;
    end_date : string
}.
End Contract.

(** A row of [billing_records.csv] with every cell of [invoice_id],
    [customer_id], [service_type], [usage_quantity] and [date] filled in, as
    the generator writes them.  The two float columns can have an empty cell,
    which pandas reads as NaN. *)
Module Billing.
Record t := mk {
    invoice_id : Z;
    customer_id : string;
    service_type : string;
    billed_rate : float;
    usage_quantity : Z;
    total_charge : float;
    date : string
}.
End Billing.

Module UsageLog.
Record t := mk {
    log_id : Z;
    customer_id : string;
    service_type : string;
    recorded_usage : Z;
    timestamp : string
}.
End UsageLog.

(** The files of [PROCESSED_DATA_DIR], parsed; [None] is a file that does not
    exist. *)
Record data_dir := {
  contracts_json : option (list Contract.t);
  billing_records_csv : option (list Billing.t);
  usage_logs_json : option (list UsageLog.t)
}.

Definition contract_key (contract : Contract.t) : key :=
  (Contract.customer_id contract, Contract.service_type contract).

Definition billing_key (row : Billing.t) : key :=
  (Billing.customer_id row, Billing.service_type row).

Definition usage_key (log : UsageLog.t) : key :=
  (UsageLog.customer_id log, UsageLog.service_type log).

(** ** compare_rates *)

Module Discrepancy.
Record t := mk {
    invoice_id : Z;
    customer_id : string;
    service_type : string;
    agreed_rate : float;
    billed_rate : float;
    usage_quantity : Z;
    total_charge : float;
    correct_charge : float;
    revenue_impact : float;
    date : string
}.
End Discrepancy.

(** An argument [x] passes [if x:] when it is neither [None] nor empty. *)
Definition truthy (arg : option string) : option string :=
  match arg with
  | Some "" => None
  | _ => arg
  end.

Definition filter_contracts (customer_id service_type : option string)
    (contracts : list Contract.t) : list Contract.t :=
  let contracts :=
    match truthy customer_id with
    | Some c => filter (λ x, Contract.customer_id x = c) contracts
    | None => contracts
    end in
  match truthy service_type with
  | Some s => filter (λ x, Contract.service_type x = s) contracts
  | None => contracts
  end.

Definition filter_billing (customer_id service_type : option string)
    (billing_df : list Billing.t) : list Billing.t :=
  let billing_df :=
    match truthy customer_id with
    | Some c => filter (λ x, Billing.customer_id x = c) billing_df
    | None => billing_df
    end in
  match truthy service_type with
  | Some s => filter (λ x, Billing.service_type x = s) billing_df
  | None => billing_df
  end.

(** [contract_lookup[key] = contract] for each contract in turn. *)
Definition contract_lookup (contracts : list Contract.t) : gmap key Contract.t :=
  foldl (λ lookup contract, <[contract_key contract := contract]> lookup)
        ∅ contracts.

(** [abs(agreed_rate - billed_rate) > 0.0001] *)
Definition rates_differ (agreed_rate billed_rate : float) : bool :=
  (0.0001 <? abs (agreed_rate - billed_rate))%float.

Definition discrepancy (contract : Contract.t) (row : Billing.t) : Discrepancy.t :=
  let agreed_rate := Contract.agreed_rate contract in
  let billed_rate := Billing.billed_rate row in
  {| Discrepancy.invoice_id := Billing.invoice_id row;
     Discrepancy.customer_id := Billing.customer_id row;
     Discrepancy.service_type := Billing.service_type row;
     Discrepancy.agreed_rate := agreed_rate;
     Discrepancy.billed_rate := billed_rate;
     Discrepancy.usage_quantity := Billing.usage_quantity row;
     Discrepancy.total_charge := Billing.total_charge row;
     Discrepancy.correct_charge :=
       (agreed_rate * float_of_int (Billing.usage_quantity row))%float;
     Discrepancy.revenue_impact :=
       ((agreed_rate - billed_rate) * float_of_int (Billing.usage_quantity row))%float;
     Discrepancy.date := Billing.date row |}.

(** The loop over the billing rows: one more discrepancy for a row whose key
    has a contract and whose rate differs from that contract's. *)
Definition rate_discrepancies (contracts : list Contract.t)
    (billing_df : list Billing.t) : list Discrepancy.t :=
  let contract_lookup := contract_lookup contracts in
  foldl (λ discrepancies row,
           match contract_lookup !! billing_key row with
           | Some contract =>
               if rates_differ (Contract.agreed_rate contract) (Billing.billed_rate row)
               then discrepancies ++ [discrepancy contract row]
               else discrepancies
           | None => discrepancies
           end)
        [] billing_df.

(** [sum(d['revenue_impact'] for d in discrepancies)] *)
Definition total_impact (discrepancies : list Discrepancy.t) : float :=
  foldl (λ total d, (total + Discrepancy.revenue_impact d)%float)
        (float_of_int 0) discrepancies.

Definition discrepancy_detail (i : nat) (d : Discrepancy.t) : string :=
  "Discrepancy " +:+ pretty (S i) +:+ ":" +:+ NL +:+
  "  Invoice ID: " +:+ pretty (Discrepancy.invoice_id d) +:+ NL +:+
  "  Customer: " +:+ Discrepancy.customer_id d +:+ NL +:+
  "  Service: " +:+ Discrepancy.service_type d +:+ NL +:+
  "  Agreed Rate: $" +:+ float_repr (Discrepancy.agreed_rate d) +:+ NL +:+
  "  Billed Rate: $" +:+ float_repr (Discrepancy.billed_rate d) +:+ NL +:+
  "  Usage: " +:+ pretty (Discrepancy.usage_quantity d) +:+ NL +:+
  "  Billed Amount: $" +:+ format_2f (Discrepancy.total_charge d) +:+ NL +:+
  "  Correct Amount: $" +:+ format_2f (Discrepancy.correct_charge d) +:+ NL +:+
  "  Revenue Impact: $" +:+ format_2f (Discrepancy.revenue_impact d) +:+ NL +:+
  "  Date: " +:+ Discrepancy.date d +:+ NL +:+ NL.

Definition rate_report (discrepancies : list Discrepancy.t) : string :=
  match discrepancies with
  | [] => "No rate discrepancies found."
  | _ =>
      let report :=
        "Found " +:+ pretty (length discrepancies) +:+ " rate discrepancies:" +:+ NL +:+ NL in
      let report :=
        report +:+ "Total Revenue Impact: $" +:+ format_2f (total_impact discrepancies)
               +:+ NL +:+ NL in
      let report := append_all report (imap discrepancy_detail (take 10 discrepancies)) in
      if decide (10 < length discrepancies)%nat
      then report +:+ "... and " +:+ pretty (length discrepancies - 10)%nat
                  +:+ " more discrepancies." +:+ NL
      else report
  end.

Definition compare_rates (fs : data_dir) (customer_id service_type : option string)
    : string :=
  match contracts_json fs with
  | None => "Contracts file not found."
  | Some contracts =>
      match billing_records_csv fs with
      | None => "Billing records file not found."
      | Some billing_df =>
          let contracts := filter_contracts customer_id service_type contracts in
          let billing_df := filter_billing customer_id service_type billing_df in
          rate_report (rate_discrepancies contracts billing_df)
      end
  end.

(** ** detect_missing_charges *)

(** [billed_services.add(key)] for each billing row in turn. *)
Definition billed_services (billing_df : list Billing.t) : gset key :=
  foldl (λ billed row, billed ∪ {[billing_key row]}) ∅ billing_df.

(** The loop over the contracts: a contract whose key no billing row has. *)
Definition missing_charges (contracts : list Contract.t)
    (billing_df : list Billing.t) : list Contract.t :=
  let billed_services := billed_services billing_df in
  foldl (λ missing contract,
           if decide (contract_key contract ∉ billed_services)
           then missing ++ [contract]
           else missing)
        [] contracts.

Definition missing_charge_detail (i : nat) (contract : Contract.t) : string :=
  "Missing Charge " +:+ pretty (S i) +:+ ":" +:+ NL +:+
  "  Contract ID: " +:+ pretty (Contract.contract_id contract) +:+ NL +:+
  "  Customer: " +:+ Contract.customer_id contract +:+ NL +:+
  "  Service: " +:+ Contract.service_type contract +:+ NL +:+
  "  Agreed Rate: $" +:+ float_repr (Contract.agreed_rate contract) +:+ NL +:+
  "  Contract Period: " +:+ Contract.start_date contract +:+ " to " +:+
     Contract.end_date contract +:+ NL +:+ NL.

Definition missing_charges_report (missing : list Contract.t) : string :=
  match missing with
  | [] => "No missing charges found."
  | _ =>
      let report :=
        "Found " +:+ pretty (length missing) +:+ " missing charges:" +:+ NL +:+ NL in
      let report := append_all report (imap missing_charge_detail (take 10 missing)) in
      if decide (10 < length missing)%nat
      then report +:+ "... and " +:+ pretty (length missing - 10)%nat
                  +:+ " more missing charges." +:+ NL
      else report
  end.

Definition detect_missing_charges (fs : data_dir) : string :=
  match contracts_json fs with
  | None => "Contracts file not found."
  | Some contracts =>
      match billing_records_csv fs with
      | None => "Billing records file not found."
      | Some billing_df =>
          missing_charges_report (missing_charges contracts billing_df)
      end
  end.

(** ** detect_duplicate_entries *)

(** The values of a row in [duplicate_columns]: every column but
    [invoice_id]. *)
Definition business_key : Type := string * string * float * Z * float * string.

Definition duplicate_columns (row : Billing.t) : business_key :=
  (Billing.customer_id row, Billing.service_type row, Billing.billed_rate row,
   Billing.usage_quantity row, Billing.total_charge row, Billing.date row).

(** pandas compares the floats of a column by [==], and takes two missing
    values (NaN) for equal. *)
Definition float_same (x y : float) : bool :=
  (x =? y)%float || (is_nan x && is_nan y).

Definition same_key (k1 k2 : business_key) : bool :=
  let '(c1, s1, r1, u1, t1, d1) := k1 in
  let '(c2, s2, r2, u2, t2, d2) := k2 in
  bool_decide (c1 = c2) && bool_decide (s1 = s2) && float_same r1 r2 &&
  bool_decide (u1 = u2) && float_same t1 t2 && bool_decide (d1 = d2).

(** [df.duplicated(subset=duplicate_columns, keep=False)]: the mask of the
    rows whose key some other row has too. *)
Definition duplicated (df : list Billing.t) : list bool :=
  map (λ row,
         bool_decide (1 < length (filter (λ other,
            same_key (duplicate_columns other) (duplicate_columns row) = true) df))%nat)
      df.

(** [df[mask]] *)
Definition select {A} (df : list A) (mask : list bool) : list A :=
  fst <$> filter (λ rb, snd rb = true) (zip df mask).

(** The order of [sort_values] in a float column: ascending, missing values
    last. *)
Definition float_order (x y : float) : comparison :=
  match is_nan x, is_nan y with
  | true, true => Eq
  | true, false => Gt
  | false, true => Lt
  | false, false =>
      if (x <? y)%float then Lt else if (x =? y)%float then Eq else Gt
  end.

Definition lex (c1 c2 : comparison) : comparison :=
  match c1 with Eq => c2 | _ => c1 end.

Definition key_order (k1 k2 : business_key) : comparison :=
  let '(c1, s1, r1, u1, t1, d1) := k1 in
  let '(c2, s2, r2, u2, t2, d2) := k2 in
  lex (String.compare c1 c2) (lex (String.compare s1 s2) (lex (float_order r1 r2)
    (lex (u1 ?= u2) (lex (float_order t1 t2) (String.compare d1 d2))))).

Definition key_le (k1 k2 : business_key) : bool :=
  match key_order k1 k2 with Gt => false | _ => true end.

(** Stable insertion: [x] goes before the first element that is not below
    it. *)
Fixpoint insert_by {A} (le : A → A → bool) (x : A) (l : list A) : list A :=
  match l with
  | [] => [x]
  | y :: l' => if le x y then x :: l else y :: insert_by le x l'
  end.

Definition stable_sort {A} (le : A → A → bool) (l : list A) : list A :=
  foldr (insert_by le) [] l.

(** [df.sort_values(by=duplicate_columns)] *)
Definition sort_values (df : list Billing.t) : list Billing.t :=
  stable_sort (λ r1 r2, key_le (duplicate_columns r1) (duplicate_columns r2)) df.

(** A key with a missing value.  In the rows of [Billing.t] the rate and the
    charge are the only key columns that can be missing. *)
Definition key_has_nan (k : business_key) : bool :=
  let '(_, _, r, _, t, _) := k in is_nan r || is_nan t.

(** The value that stands for [x] among the values of its column: the first
    one equal to it. *)
Definition first_same (column : list float) (x : float) : float :=
  default x (head (filter (λ y, (y =? x)%float = true) column)).

Definition group_key (df : list Billing.t) (row : Billing.t) : business_key :=
  (Billing.customer_id row, Billing.service_type row,
   first_same (Billing.billed_rate <$> df) (Billing.billed_rate row),
   Billing.usage_quantity row,
   first_same (Billing.total_charge <$> df) (Billing.total_charge row),
   Billing.date row).

(** The first row of each key, in the order of the frame. *)
Fixpoint first_of_each_key (df : list Billing.t) : list Billing.t :=
  match df with
  | [] => []
  | row :: rest =>
      row :: filter (λ other,
               same_key (duplicate_columns other) (duplicate_columns row) = false)
             (first_of_each_key rest)
  end.

(** [df.groupby(duplicate_columns)], as iterating over it yields it: one
    [(group_key, group_df)] for each key, in ascending order of the keys; the
    rows of a group keep the order of the frame, and rows with a missing value
    in a key column belong to no group. *)
Definition groupby (df : list Billing.t) : list (business_key * list Billing.t) :=
  let rows := filter (λ row, key_has_nan (duplicate_columns row) = false) df in
  (λ row,
     (group_key df row,
      filter (λ other,
         same_key (duplicate_columns other) (duplicate_columns row) = true) df))
  <$> sort_values (first_of_each_key rows).

Definition duplicates (billing_df : list Billing.t) : list Billing.t :=
  sort_values (select billing_df (duplicated billing_df)).

Definition duplicate_groups (billing_df : list Billing.t)
    : list (business_key * list Billing.t) :=
  groupby (duplicates billing_df).

(** [', '.join(map(str, invoice_ids))] *)
Fixpoint join_ids (invoice_ids : list Z) : string :=
  match invoice_ids with
  | [] => ""
  | [x] => pretty x
  | x :: rest => pretty x +:+ ", " +:+ join_ids rest
  end.

Definition duplicate_group_detail (i : nat)
    (group : business_key * list Billing.t) : string :=
  let '((customer_id, service_type, billed_rate, usage_quantity, total_charge, date),
        group_df) := group in
  let invoice_ids := Billing.invoice_id <$> group_df in
  "Duplicate Group " +:+ pretty (S i) +:+ ":" +:+ NL +:+
  "  Customer: " +:+ customer_id +:+ NL +:+
  "  Service: " +:+ service_type +:+ NL +:+
  "  Billed Rate: $" +:+ float_repr billed_rate +:+ NL +:+
  "  Usage: " +:+ pretty usage_quantity +:+ NL +:+
  "  Total Charge: $" +:+ float_repr total_charge +:+ NL +:+
  "  Date: " +:+ date +:+ NL +:+
  "  Invoice IDs: " +:+ join_ids invoice_ids +:+ NL +:+ NL.

Definition duplicates_report (duplicates : list Billing.t)
    (duplicate_groups : list (business_key * list Billing.t)) : string :=
  match duplicates with
  | [] => "No duplicate entries found."
  | _ =>
      let report :=
        "Found " +:+ pretty (length duplicates) +:+ " duplicate entries:" +:+ NL +:+ NL in
      let report :=
        append_all report (imap duplicate_group_detail (take 10 duplicate_groups)) in
      if decide (10 < length duplicate_groups)%nat
      then report +:+ "... and " +:+ pretty (length duplicate_groups - 10)%nat
                  +:+ " more duplicate groups." +:+ NL
      else report
  end.

Definition detect_duplicate_entries (fs : data_dir) : string :=
  match billing_records_csv fs with
  | None => "Billing records file not found."
  | Some billing_df =>
      duplicates_report (duplicates billing_df) (duplicate_groups billing_df)
  end.

(** ** detect_usage_mismatches *)

Module Mismatch.
Record t := mk {
  customer_id : string;
  service_type : string;
  recorded_usage : Z;
  billed_usage : Z;
  difference : Z;
  difference_pct : float
}.
End Mismatch.

(** [if key not in d: d[key] = 0] then [d[key] += amount] *)
Definition add_to (d : gmap key Z) (k : key) (amount : Z) : gmap key Z :=
  let d := if decide (k ∉ dom d) then <[k := 0]> d else d in
  <[k := default 0 (d !! k) + amount]> d.

Definition usage_by_customer_service (usage_logs : list UsageLog.t) : gmap key Z :=
  foldl (λ d log, add_to d (usage_key log) (UsageLog.recorded_usage log)) ∅ usage_logs.

Definition billing_by_customer_service (billing_df : list Billing.t) : gmap key Z :=
  foldl (λ d row, add_to d (billing_key row) (Billing.usage_quantity row)) ∅ billing_df.

(** The order in which a loop goes through a Python set of string pairs.  It
    follows the hashes of the strings, which the interpreter salts anew in each
    process: all that holds of it is that every element comes once. *)
Record set_order := {
  set_iter : gset key → list key;
  set_iter_perm : ∀ s, set_iter s ≡ₚ elements s
}.

(** [abs(usage - billed) / max(usage, billed) * 100] *)
Definition difference_pct (usage billed : Z) : float :=
  (int_truediv (Z.abs (usage - billed)) (Z.max usage billed) * 100)%float.

Definition mismatch (k : key) (usage billed : Z) : Mismatch.t :=
  {| Mismatch.customer_id := k.1;
     Mismatch.service_type := k.2;
     Mismatch.recorded_usage := usage;
     Mismatch.billed_usage := billed;
     Mismatch.difference := usage - billed;
     Mismatch.difference_pct := difference_pct usage billed |}.

(** The loop over the keys of both aggregates. *)
Definition mismatches (h : set_order) (usage_logs : list UsageLog.t)
    (billing_df : list Billing.t) : list Mismatch.t :=
  let usage_by_customer_service := usage_by_customer_service usage_logs in
  let billing_by_customer_service := billing_by_customer_service billing_df in
  foldl (λ mismatches k,
           let usage := default 0 (usage_by_customer_service !! k) in
           let billed := default 0 (billing_by_customer_service !! k) in
           if bool_decide (0 < usage) && bool_decide (0 < billed) then
             if (10 <? difference_pct usage billed)%float
             then mismatches ++ [mismatch k usage billed]
             else mismatches
           else mismatches)
        []
        (set_iter h (dom usage_by_customer_service ∪ dom billing_by_customer_service)).

Definition mismatch_detail (i : nat) (mismatch : Mismatch.t) : string :=
  "Mismatch " +:+ pretty (S i) +:+ ":" +:+ NL +:+
  "  Customer: " +:+ Mismatch.customer_id mismatch +:+ NL +:+
  "  Service: " +:+ Mismatch.service_type mismatch +:+ NL +:+
  "  Recorded Usage: " +:+ pretty (Mismatch.recorded_usage mismatch) +:+ NL +:+
  "  Billed Usage: " +:+ pretty (Mismatch.billed_usage mismatch) +:+ NL +:+
  "  Difference: " +:+ pretty (Mismatch.difference mismatch) +:+ " (" +:+
     format_2f (Mismatch.difference_pct mismatch) +:+ "%)" +:+ NL +:+ NL.

Definition mismatches_report (mismatches : list Mismatch.t) : string :=
  match mismatches with
  | [] => "No significant usage mismatches found."
  | _ =>
      let report :=
        "Found " +:+ pretty (length mismatches) +:+ " significant usage mismatches:"
                 +:+ NL +:+ NL in
      let report := append_all report (imap mismatch_detail (take 10 mismatches)) in
      if decide (10 < length mismatches)%nat
      then report +:+ "... and " +:+ pretty (length mismatches - 10)%nat
                  +:+ " more mismatches." +:+ NL
      else report
  end.

Definition detect_usage_mismatches (h : set_order) (fs : data_dir) : string :=
  match usage_logs_json fs with
  | None => "Usage logs file not found."
  | Some usage_logs =>
      match billing_records_csv fs with
      | None => "Billing records file not found."
      | Some billing_df => mismatches_report (mismatches h usage_logs billing_df)
      end
  end.

(** ** The four detectors as the agent's tools *)

Inductive detector :=
  | CompareRates (customer_id service_type : option string)
  | DetectMissingCharges
  | DetectDuplicateEntries
  | DetectUsageMismatches.

Definition run (h : set_order) (fs : data_dir) (d : detector) : string :=
  match d with
  | CompareRates customer_id service_type => compare_rates fs customer_id service_type
  | DetectMissingCharges => detect_missing_charges fs
  | DetectDuplicateEntries => detect_duplicate_entries fs
  | DetectUsageMismatches => detect_usage_mismatches h fs
  end.

(** * Specification vocabulary *)

(** What one turn of the loop of [compare_rates] adds for a row. *)
Definition check_row (lookup : gmap key Contract.t) (row : Billing.t)
    : option Discrepancy.t :=
  match lookup !! billing_key row with
  | Some contract =>
      if rates_differ (Contract.agreed_rate contract) (Billing.billed_rate row)
      then Some (discrepancy contract row)
      else None
  | None => None
  end.


(** A key passes the optional filters of [compare_rates]. *)
Definition passes (customer_id service_type : option string) (k : key) : Prop :=
  (∀ c, truthy customer_id = Some c → k.1 = c) ∧
  (∀ s, truthy service_type = Some s → k.2 = s).


(** The list [discrepancies] that [compare_rates] reports on. *)
Definition discrepancies_of (customer_id service_type : option string)
    (contracts : list Contract.t) (billing_df : list Billing.t) : list Discrepancy.t :=
  rate_discrepancies (filter_contracts customer_id service_type contracts)
                     (filter_billing customer_id service_type billing_df).

Definition discrepancy_key (d : Discrepancy.t) : key :=
  (Discrepancy.customer_id d, Discrepancy.service_type d).

(** A billing row that no contract of the input matches. *)
Definition orphan (contracts : list Contract.t) (row : Billing.t) : Prop :=
  Forall (λ c, contract_key c ≠ billing_key row) contracts.

#[global] Instance orphan_dec contracts row : Decision (orphan contracts row).
Proof. unfold orphan. apply _. Defined.

(** ** Sample records *)

Definition contract_C100 : Contract.t :=
  Contract.mk 1 "C100" "cloud_storage" 0.05 "2024-01-01" "2024-12-31".

Definition invoice_1 : Billing.t :=
  Billing.mk 1 "C100" "cloud_storage" 0.045 100 4.5 "2024-01-01".

Definition contract_C100_renewed : Contract.t :=
  Contract.mk 2 "C100" "cloud_storage" 0.06 "2025-01-01" "2025-12-31".

(** The sum of [recorded_usage] over the usage logs of a key, and of
    [usage_quantity] over its billing rows. *)
Definition recorded_total (usage_logs : list UsageLog.t) (k : key) : Z :=
  foldr Z.add 0
    (UsageLog.recorded_usage <$> filter (λ log, usage_key log = k) usage_logs).

Definition billed_total (billing_df : list Billing.t) (k : key) : Z :=
  foldr Z.add 0
    (Billing.usage_quantity <$> filter (λ row, billing_key row = k) billing_df).

Definition mismatch_key (m : Mismatch.t) : key :=
  (Mismatch.customer_id m, Mismatch.service_type m).

(** What one turn of the loop of [detect_usage_mismatches] adds for a key. *)
Definition check_key (usage billing : gmap key Z) (k : key) : option Mismatch.t :=
  let u := default 0 (usage !! k) in
  let b := default 0 (billing !! k) in
  if bool_decide (0 < u) && bool_decide (0 < b) then
    if (10 <? difference_pct u b)%float then Some (mismatch k u b) else None
  else None.

(** Two orders a run of the interpreter may go through a set in. *)
Definition order_elements : set_order :=
  {| set_iter := elements; set_iter_perm := λ s, Permutation_refl (elements s) |}.

Definition order_reversed : set_order :=
  {| set_iter := λ s, reverse (elements s);
     set_iter_perm := λ s, reverse_Permutation (elements s) |}.

Definition usage_log_1 : UsageLog.t :=
  UsageLog.mk 1 "C100" "cloud_storage" 100 "2024-01-01 10:00:00".

Definition invoice_usage_89 : Billing.t :=
  Billing.mk 2 "C100" "cloud_storage" 0.05 89 4.45 "2024-01-02".

Definition invoice_usage_91 : Billing.t :=
  Billing.mk 3 "C100" "cloud_storage" 0.05 91 4.55 "2024-01-03".

(** ** Reading a report *)

(** The text [s] stands somewhere in [report]. *)
Definition occurs_in (s report : string) : Prop :=
  ∃ before after, report = before +:+ s +:+ after.

Fixpoint starts_with (s report : string) : bool :=
  match s, report with
  | "", _ => true
  | String a s', String b report' => bool_decide (a = b) && starts_with s' report'
  | _, _ => false
  end.

Fixpoint contains (s report : string) : bool :=
  starts_with s report ||
  match report with
  | "" => false
  | String _ report' => contains s report'
  end.



Definition scenario_files : data_dir :=
  {| contracts_json := Some [contract_C100];
     billing_records_csv := Some [invoice_1];
     usage_logs_json := Some [usage_log_1] |}.


(** ** The record sets a detector loads *)

Inductive record_set := Contracts | BillingRecords | UsageLogs.

(** In the order in which the detector loads them. *)
Definition loads (d : detector) : list record_set :=
  match d with
  | CompareRates _ _ => [Contracts; BillingRecords]
  | DetectMissingCharges => [Contracts; BillingRecords]
  | DetectDuplicateEntries => [BillingRecords]
  | DetectUsageMismatches => [UsageLogs; BillingRecords]
  end.

Definition absent (fs : data_dir) (r : record_set) : Prop :=
  match r with
  | Contracts => contracts_json fs = None
  | BillingRecords => billing_records_csv fs = None
  | UsageLogs => usage_logs_json fs = None
  end.

Definition same_record_set (fs fs' : data_dir) (r : record_set) : Prop :=
  match r with
  | Contracts => contracts_json fs = contracts_json fs'
  | BillingRecords => billing_records_csv fs = billing_records_csv fs'
  | UsageLogs => usage_logs_json fs = usage_logs_json fs'
  end.

Definition not_found (r : record_set) : string :=
  match r with
  | Contracts => "Contracts file not found."
  | BillingRecords => "Billing records file not found."
  | UsageLogs => "Usage logs file not found."
  end.

Definition no_contracts_files : data_dir :=
  {| contracts_json := None;
     billing_records_csv := Some [];
     usage_logs_json := Some [] |}.

Definition no_usage_files : data_dir :=
  {| contracts_json := Some [contract_C100];
     billing_records_csv := Some [invoice_1];
     usage_logs_json := None |}.

Definition usage_log_2 : UsageLog.t :=
  UsageLog.mk 2 "C200" "bandwidth" 100 "2024-01-01 11:00:00".

Definition invoice_bandwidth_50 : Billing.t :=
  Billing.mk 4 "C200" "bandwidth" 0.02 50 1.0 "2024-01-02".

Definition two_mismatch_files : data_dir :=
  {| contracts_json := None;
     billing_records_csv := Some [invoice_usage_89; invoice_bandwidth_50];
     usage_logs_json := Some [usage_log_1; usage_log_2] |}.

(** ** Orders given by a comparison *)

(** What makes a comparison function a total preorder. *)
Record cmp_laws {A} (cmp : A → A → comparison) : Prop := {
  cmp_antisym : ∀ x y, cmp y x = CompOpp (cmp x y);
  cmp_eq_l : ∀ x y z c, cmp x y = Eq → cmp y z = c → cmp x z = c;
  cmp_lt_trans : ∀ x y z, cmp x y = Lt → cmp y z = Lt → cmp x z = Lt
}.

(** A float as a triple of integers that compare, in lexicographic order, as
    [sort_values] compares floats: the negative ones, zero, the positive ones,
    then the missing value. *)
Definition float_rank (x : float) : Z * (Z * Z) :=
  match Prim2SF x with
  | S754_nan => (3, (0, 0))
  | S754_infinity true => (-2, (0, 0))
  | S754_infinity false => (2, (0, 0))
  | S754_zero _ => (0, (0, 0))
  | S754_finite true m e => (-1, (- e, Zneg m))
  | S754_finite false m e => (1, (e, Zpos m))
  end.

Definition rank_order (r1 r2 : Z * (Z * Z)) : comparison :=
  lex (r1.1 ?= r2.1) (lex (r1.2.1 ?= r2.2.1) (r1.2.2 ?= r2.2.2)).

(** [key_order] column by column, from the last column to the first. *)
Definition order_5 (x y : float * string) : comparison :=
  lex (float_order x.1 y.1) (String.compare x.2 y.2).
Definition order_4 (x y : Z * (float * string)) : comparison :=
  lex (x.1 ?= y.1) (order_5 x.2 y.2).
Definition order_3 (x y : float * (Z * (float * string))) : comparison :=
  lex (float_order x.1 y.1) (order_4 x.2 y.2).
Definition order_2 (x y : string * (float * (Z * (float * string)))) : comparison :=
  lex (String.compare x.1 y.1) (order_3 x.2 y.2).
Definition order_1 (x y : string * (string * (float * (Z * (float * string)))))
    : comparison :=
  lex (String.compare x.1 y.1) (order_2 x.2 y.2).

Definition key_columns (k : business_key)
    : string * (string * (float * (Z * (float * string)))) :=
  let '(c, s, r, u, t, d) := k in (c, (s, (r, (u, (t, d))))).

Arguments same_key : simpl never.
Arguments key_order : simpl never.
Arguments key_le : simpl never.
Arguments duplicate_columns : simpl never.

(** A row whose business key another row of the frame has too. *)
Definition is_duplicate (df : list Billing.t) (row : Billing.t) : Prop :=
  (1 < length (filter (λ other,
         same_key (duplicate_columns other) (duplicate_columns row) = true) df))%nat.

#[global] Instance is_duplicate_dec df row : Decision (is_duplicate df row).
Proof. unfold is_duplicate. apply _. Defined.

(** The rows of a frame with the business key [k]. *)
Definition rows_with_key (k : business_key) (df : list Billing.t) : list Billing.t :=
  filter (λ row, same_key (duplicate_columns row) k = true) df.

Definition row_le (r1 r2 : Billing.t) : bool :=
  key_le (duplicate_columns r1) (duplicate_columns r2).

(** Two rows that differ in [invoice_id] only, and two rows without a billed
    rate (an empty cell of the file is read as NaN). *)
Definition invoice_A1 : Billing.t :=
  Billing.mk 1 "A" "cloud_storage" 5 100 500 "2024-01-01".
Definition invoice_A2 : Billing.t :=
  Billing.mk 2 "A" "cloud_storage" 5 100 500 "2024-01-01".
Definition invoice_no_rate_1 : Billing.t :=
  Billing.mk 1 "A" "cloud_storage" nan 100 500 "2024-01-01".
Definition invoice_no_rate_2 : Billing.t :=
  Billing.mk 2 "A" "cloud_storage" nan 100 500 "2024-01-01".

Definition orphan_duplicate_files : data_dir :=
  {| contracts_json := Some [contract_C100];
     billing_records_csv := Some [invoice_A1; invoice_A2];
     usage_logs_json := None |}.

(** ** Binary64 values by their mantissa and exponent *)

(** The number of binary digits of a mantissa. *)
Definition dg (p : positive) : Z := Zpos (digits2_pos p).


(** A spec float that is neither zero nor NaN, with its sign. *)
Definition sf_signed (x : spec_float) (s : bool) : Prop :=
  match x with
  | S754_finite s' _ _ | S754_infinity s' => s' = s
  | _ => False
  end.

(** A spec float of sign [s] that is an infinity or has magnitude at least
    [2^(k-1)]. *)
Definition sf_large (x : spec_float) (s : bool) (k : Z) : Prop :=
  match x with
  | S754_finite s' m e => s' = s /\ k <= dg m + e
  | S754_infinity s' => s' = s
  | _ => False
  end.


(** Two invoices for 100 units, one billed below and one above the agreed
    rate of 0.05. *)
Definition invoice_undercharged : Billing.t :=
  Billing.mk 5 "C100" "cloud_storage" 0.04 100 4 "2024-02-01".

Definition invoice_overcharged : Billing.t :=
  Billing.mk 6 "C100" "cloud_storage" 0.06 100 6 "2024-02-02".
(** ** The filters of compare_rates, decided *)

#[global] Instance passes_dec customer_id service_type k :
  Decision (passes customer_id service_type k).
Proof.
  unfold passes.
  destruct (truthy customer_id) as [c|], (truthy service_type) as [s|].
  - destruct (decide (k.1 = c)) as [Hc|Hc], (decide (k.2 = s)) as [Hs|Hs];
      [left|right|right|right]; naive_solver.
  - destruct (decide (k.1 = c)) as [Hc|Hc]; [left|right]; naive_solver.
  - destruct (decide (k.2 = s)) as [Hs|Hs]; [left|right]; naive_solver.
  - left. naive_solver.
Defined.

(** ** query_billing_data *)

(** [str.lower] and the white space of [str.split], for the characters the
    strings of this file are made of (code points below 256). *)
Definition lower_char (c : ascii) : ascii :=
  let n := N_of_ascii c in
  if ((65 <=? n) && (n <=? 90) || (192 <=? n) && (n <=? 222) && negb (n =? 215))%N
  then ascii_of_N (n + 32) else c.

Fixpoint lower (s : string) : string :=
  match s with
  | "" => ""
  | String c s' => String (lower_char c) (lower s')
  end.

Definition is_space (c : ascii) : bool :=
  let n := N_of_ascii c in
  ((9 <=? n) && (n <=? 13) || (28 <=? n) && (n <=? 32) || (n =? 133) || (n =? 160))%N.

(** [s.split()]: the words of [s], that is its longest runs of characters
    that are not white space. *)
Fixpoint split (s : string) : list string :=
  match s with
  | "" => []
  | String c s' =>
      if is_space c then split s'
      else
        match s' with
        | "" => [String c ""]
        | String c' _ =>
            if is_space c' then String c "" :: split s'
            else
              match split s' with
              | word :: words => String c word :: words
              | [] => [String c ""]
              end
        end
  end.

Definition service_types : list string :=
  ["cloud_storage"; "compute_instances"; "database_service";
   "api_calls"; "bandwidth"; "support_plan"].

(** The first word of the query that starts with "C" and has five characters
    or more. *)
Definition find_customer_id (query : string) : option string :=
  List.find (λ word, starts_with "C" word && bool_decide (5 ≤ String.length word)%nat)
            (split query).

(** The first of [service_types] that the query names, in lower case. *)
Definition find_service_type (query : string) : option string :=
  List.find (λ service, contains service (lower query)) service_types.

Section query_billing_data.

(** [DataFrame.to_string], the text pandas prints for a table. *)
Variable to_string : list Billing.t → string.

(** [filtered_df.to_string() if not filtered_df.empty else f"No billing
    records found for {name}"] *)
Definition filtered_answer (filtered_df : list Billing.t) (name : string) : string :=
  match filtered_df with
  | [] => "No billing records found for " +:+ name
  | _ => to_string filtered_df
  end.

Definition query_billing_data (fs : data_dir) (query : string) : string :=
  match billing_records_csv fs with
  | None => "Billing records file not found."
  | Some billing_df =>
      let by_customer :=
        if contains "customer" (lower query) then
          match find_customer_id query with
          | Some customer_id =>
              Some (filtered_answer
                      (filter (λ row, Billing.customer_id row = customer_id) billing_df)
                      customer_id)
          | None => None
          end
        else None in
      match by_customer with
      | Some answer => answer
      | None =>
          let by_service :=
            if contains "service" (lower query) then
              match find_service_type query with
              | Some service_type =>
                  Some (filtered_answer
                          (filter (λ row, Billing.service_type row = service_type)
                                  billing_df)
                          service_type)
              | None => None
              end
            else None in
          match by_service with
          | Some answer => answer
          | None => to_string billing_df
          end
      end
  end.

End query_billing_data.

(** A contract that is never billed. *)
Definition contract_C200 : Contract.t :=
  Contract.mk 3 "C200" "bandwidth" 0.02 "2024-01-01" "2024-12-31".

(** A rendering of tables for the examples: the invoice ids of the rows. *)
Definition invoice_ids_text (rows : list Billing.t) : string :=
  join_ids (Billing.invoice_id <$> rows).

(** ** Rates written with four decimals *)

(** The rate [k / 10000], as [round(rate, 4)] and the readers of the files
    give it: the binary64 number nearest to it (for [0 <= k < 2^53]). *)
Definition decimal_rate (k : Z) : float :=
  (of_uint63 (Uint63.of_Z k) / 10000)%float.

(** [P] holds of the [n] integers from [first] on. *)
Definition all_in_range (P : Z → bool) (first : Z) (n : N) : bool :=
  (N.iter n (λ st : Z * bool, (st.1 + 1, st.2 && P st.1)) (first, true)).2.

(** An invoice billed 0.0001 below the agreed rate of 0.05. *)
Definition invoice_0499 : Billing.t :=
  Billing.mk 7 "C100" "cloud_storage" 0.0499 100 4.99 "2024-02-03".

Definition invoice_0499_files : data_dir :=
  {| contracts_json := Some [contract_C100];
     billing_records_csv := Some [invoice_0499];
     usage_logs_json := None |}.
(** * Properties *)

(** ** Loops that append to a list *)

Lemma foldl_append_omap {A B} (f : A → option B) (step : list B → A → list B) :
  (∀ acc x, step acc x = acc ++ option_list (f x)) →
  ∀ l acc, foldl step acc l = acc ++ omap f l.
Proof.
  intros Hstep l. induction l as [|x l IH]; intros acc; simpl.
  - by rewrite app_nil_r.
  - rewrite IH, Hstep. destruct (f x); simpl; by rewrite <- ?app_assoc, ?app_nil_r.
Qed.

Lemma omap_decide_filter {A} (P : A → Prop) `{∀ x, Decision (P x)} (l : list A) :
  omap (λ x, if decide (P x) then Some x else None) l = filter P l.
Proof.
  induction l as [|x l IH]; [done|].
  rewrite filter_cons. cbn. destruct (decide (P x)); by rewrite IH.
Qed.

Lemma foldl_snoc {A B} (f : B → A → B) (b : B) (l : list A) (x : A) :
  foldl f b (l ++ [x]) = f (foldl f b l) x.
Proof. by rewrite foldl_app. Qed.

(** ** compare_rates: the lookup and the loop *)

(** The contract a key is looked up to is the last one of the input with that
    key. *)
Lemma contract_lookup_last (contracts : list Contract.t) (k : key) :
  contract_lookup contracts !! k = last (filter (λ c, contract_key c = k) contracts).
Proof.
  unfold contract_lookup.
  induction contracts as [|c contracts IH] using rev_ind; [done|].
  rewrite foldl_snoc, filter_app, lookup_insert.
  rewrite filter_cons, filter_nil. repeat case_decide; try congruence.
  - by rewrite last_snoc.
  - by rewrite app_nil_r.
Qed.

Lemma rate_discrepancies_omap contracts billing_df :
  rate_discrepancies contracts billing_df
  = omap (check_row (contract_lookup contracts)) billing_df.
Proof.
  unfold rate_discrepancies.
  rewrite (foldl_append_omap (check_row (contract_lookup contracts))); [done|].
  intros acc row. unfold check_row.
  destruct (contract_lookup contracts !! billing_key row) as [c|]; simpl.
  - destruct (rates_differ _ _); simpl; by rewrite ?app_nil_r.
  - by rewrite app_nil_r.
Qed.

Lemma elem_of_filter_billing customer_id service_type billing_df row :
  row ∈ filter_billing customer_id service_type billing_df
  ↔ row ∈ billing_df ∧ passes customer_id service_type (billing_key row).
Proof.
  unfold filter_billing, passes, billing_key; simpl.
  destruct (truthy customer_id) as [c|], (truthy service_type) as [s|];
    rewrite ?list_elem_of_filter; naive_solver.
Qed.

Lemma elem_of_filter_contracts customer_id service_type contracts c :
  c ∈ filter_contracts customer_id service_type contracts
  ↔ c ∈ contracts ∧ passes customer_id service_type (contract_key c).
Proof.
  unfold filter_contracts, passes, contract_key; simpl.
  destruct (truthy customer_id) as [x|], (truthy service_type) as [s|];
    rewrite ?list_elem_of_filter; naive_solver.
Qed.

Lemma filter_filter_absorb {A} (P Q : A → Prop) `{∀ x, Decision (P x)}
    `{∀ x, Decision (Q x)} (l : list A) :
  (∀ x, P x → Q x) → filter P (filter Q l) = filter P l.
Proof.
  intros HPQ. induction l as [|x l IH]; [done|].
  rewrite (filter_cons Q), (filter_cons P).
  destruct (decide (Q x)) as [HQ|HQ], (decide (P x)) as [HP|HP].
  - rewrite filter_cons, decide_True by done. by rewrite IH.
  - rewrite filter_cons, decide_False by done. by rewrite IH.
  - naive_solver.
  - done.
Qed.

(** The two filters narrow contracts and billing rows alike: a key that
    passes them is looked up to the same contract with and without them. *)
Lemma contract_lookup_filter customer_id service_type contracts k :
  passes customer_id service_type k →
  contract_lookup (filter_contracts customer_id service_type contracts) !! k
  = contract_lookup contracts !! k.
Proof.
  intros [Hc Hs]. rewrite !contract_lookup_last. f_equal.
  unfold filter_contracts.
  destruct (truthy customer_id) as [c|], (truthy service_type) as [s|];
    rewrite ?filter_filter_absorb; try done;
    intros x <-; first [by apply Hc | by apply Hs].
Qed.

Lemma compare_rates_report contracts billing_df usage customer_id service_type :
  compare_rates
    {| contracts_json := Some contracts; billing_records_csv := Some billing_df;
       usage_logs_json := usage |} customer_id service_type
  = rate_report (discrepancies_of customer_id service_type contracts billing_df).
Proof. done. Qed.

Lemma elem_of_discrepancies_of customer_id service_type contracts billing_df d :
  d ∈ discrepancies_of customer_id service_type contracts billing_df
  ↔ ∃ row contract,
      row ∈ billing_df ∧ passes customer_id service_type (billing_key row) ∧
      contract_lookup contracts !! billing_key row = Some contract ∧
      rates_differ (Contract.agreed_rate contract) (Billing.billed_rate row) = true ∧
      d = discrepancy contract row.
Proof.
  unfold discrepancies_of. rewrite rate_discrepancies_omap, list_elem_of_omap.
  split.
  - intros (row & Hrow & Hd). apply elem_of_filter_billing in Hrow as [Hrow Hpass].
    unfold check_row in Hd. rewrite contract_lookup_filter in Hd by done.
    destruct (contract_lookup contracts !! billing_key row) as [c|] eqn:Hc; [|done].
    destruct (rates_differ _ _) eqn:Hdiff; [|done].
    exists row, c. naive_solver.
  - intros (row & c & Hrow & Hpass & Hc & Hdiff & ->). exists row. split.
    + by apply elem_of_filter_billing.
    + unfold check_row. rewrite contract_lookup_filter by done.
      by rewrite Hc, Hdiff.
Qed.

Lemma contract_lookup_Some contracts k c :
  contract_lookup contracts !! k = Some c → c ∈ contracts ∧ contract_key c = k.
Proof.
  rewrite contract_lookup_last. intros Hlast.
  apply last_Some_elem_of, list_elem_of_filter in Hlast. naive_solver.
Qed.

Lemma contract_lookup_None contracts k :
  contract_lookup contracts !! k = None ↔ ∀ c, c ∈ contracts → contract_key c ≠ k.
Proof.
  rewrite contract_lookup_last, last_None. split.
  - intros Hnil c Hc Hk.
    assert (c ∈ filter (λ c, contract_key c = k) contracts) as Hin
      by by apply list_elem_of_filter.
    rewrite Hnil in Hin. by apply not_elem_of_nil in Hin.
  - intros Hall. induction contracts as [|c contracts IH]; [done|].
    rewrite filter_cons_False.
    + apply IH. intros c' Hc'. apply Hall. by right.
    + apply Hall. by left.
Qed.

(** ** detect_missing_charges: the set and the loop *)

Lemma elem_of_billed_services billing_df k :
  k ∈ billed_services billing_df ↔ ∃ row, row ∈ billing_df ∧ billing_key row = k.
Proof.
  unfold billed_services.
  induction billing_df as [|row billing_df IH] using rev_ind.
  - simpl. split; [set_solver|]. intros (row & Hrow & _). by apply not_elem_of_nil in Hrow.
  - rewrite foldl_snoc, elem_of_union, IH, elem_of_singleton.
    setoid_rewrite elem_of_app. setoid_rewrite list_elem_of_singleton. naive_solver.
Qed.

Lemma missing_charges_filter contracts billing_df :
  missing_charges contracts billing_df
  = filter (λ c, contract_key c ∉ billed_services billing_df) contracts.
Proof.
  unfold missing_charges.
  etrans; [apply (foldl_append_omap
    (λ c, if decide (contract_key c ∉ billed_services billing_df) then Some c else None))|].
  - intros acc c. case_decide; simpl; by rewrite ?app_nil_r.
  - apply omap_decide_filter.
Qed.

(** ** C1: the tolerance of compare_rates *)

Lemma all_in_range_spec (P : Z → bool) first n :
  all_in_range P first n = true →
  ∀ k, first ≤ k < first + Z.of_N n → P k = true.
Proof.
  unfold all_in_range.
  set (step := λ st : Z * bool, (st.1 + 1, st.2 && P st.1)).
  assert (∀ n, (N.iter n step (first, true)).1 = first + Z.of_N n ∧
               ((N.iter n step (first, true)).2 = true →
                ∀ k, first ≤ k < first + Z.of_N n → P k = true)) as H.
  { clear n. intros n. induction n as [|n [IH1 IH2]] using N.peano_ind.
    - simpl. split; [lia|]. intros _ k Hk. lia.
    - rewrite N.iter_succ. unfold step at 1 3. cbn [fst snd]. rewrite IH1.
      split; [lia|]. intros [Hall HP]%andb_true_iff k Hk.
      destruct (decide (k = first + Z.of_N n)) as [->|Hne]; [done|].
      apply (IH2 Hall). lia. }
  intros Hall. by apply (proj2 (H n)).
Qed.

(** C1, as the code has it.  A billing row that [compare_rates] examines (it
    is in the billing file and passes the optional filters) and whose key
    [(customer_id, service_type)] is looked up to a contract gets a discrepancy
    if and only if [abs(agreed_rate - billed_rate) > 0.0001], where the
    difference and the bound are the binary64 numbers the code computes with.
    The comparison is strict: a computed difference equal to the float 0.0001
    is not flagged.  Two rates written with four decimals that are 0.0002 apart
    are flagged, whichever of them is the agreed one (all rates from 0 to
    100).  Two such rates that are 0.0001 apart are flagged or not according to
    the rounding of their difference: of the 1000 pairs [k/10000],
    [(k+1)/10000] with [k] from 1 to 1000, 582 are flagged; 0.05 against 0.0499
    is, 0.05 against 0.0501 is not. *)
Theorem compare_rates_flags_above_tolerance :
  (∀ customer_id service_type contracts billing_df row contract,
     row ∈ billing_df →
     passes customer_id service_type (billing_key row) →
     contract_lookup contracts !! billing_key row = Some contract →
     (discrepancy contract row
        ∈ discrepancies_of customer_id service_type contracts billing_df
      ↔ (0.0001 <? abs (Contract.agreed_rate contract - Billing.billed_rate row))%float
        = true)) ∧
  (∀ agreed_rate billed_rate,
     abs (agreed_rate - billed_rate)%float = 0.0001%float →
     rates_differ agreed_rate billed_rate = false) ∧
  (∀ k, 0 ≤ k ≤ 1000000 →
     rates_differ (decimal_rate k) (decimal_rate (k + 2)) = true ∧
     rates_differ (decimal_rate (k + 2)) (decimal_rate k) = true) ∧
  length (filter (λ k, rates_differ (decimal_rate k) (decimal_rate (k + 1)) = true)
                 (seqZ 1 1000)) = 582%nat ∧
  length (filter (λ k, rates_differ (decimal_rate (k + 1)) (decimal_rate k) = true)
                 (seqZ 1 1000)) = 582%nat ∧
  (decimal_rate 500 = 0.05%float ∧ decimal_rate 499 = 0.0499%float ∧
   decimal_rate 501 = 0.0501%float) ∧
  rates_differ 0.05 0.0499 = true ∧
  rates_differ 0.05 0.0501 = false.
Proof.
  split; [|split; [|split; [|split; [|split; [|split; [|split]]]]]].
  - intros customer_id service_type contracts billing_df row contract Hrow Hpass Hc.
    rewrite elem_of_discrepancies_of. fold (rates_differ (Contract.agreed_rate contract)
      (Billing.billed_rate row)). split.
    + intros (row' & c' & _ & _ & _ & Hdiff & Heq).
      apply (f_equal Discrepancy.agreed_rate) in Heq as Ha.
      apply (f_equal Discrepancy.billed_rate) in Heq as Hb.
      simpl in Ha, Hb. by rewrite Ha, Hb.
    + intros Hdiff. by exists row, contract.
  - intros a b Heq. unfold rates_differ. by rewrite Heq.
  - intros k Hk.
    apply andb_true_iff.
    apply (all_in_range_spec
             (λ k, rates_differ (decimal_rate k) (decimal_rate (k + 2)) &&
                   rates_differ (decimal_rate (k + 2)) (decimal_rate k)) 0 1000001);
      [by vm_compute|lia].
  - by vm_compute.
  - by vm_compute.
  - repeat split; by vm_compute.
  - by vm_compute.
  - by vm_compute.
Qed.

Lemma compare_rates_flags_above_tolerance_witness :
  discrepancy contract_C100 invoice_1
    ∈ discrepancies_of None None [contract_C100] [invoice_1] ∧
  rates_differ 0.0002 0.0001 = false ∧
  rates_differ (decimal_rate 500) (decimal_rate 502) = true.
Proof.
  split; [|split].
  - apply (proj1 compare_rates_flags_above_tolerance
             None None [contract_C100] [invoice_1] invoice_1 contract_C100).
    + apply list_elem_of_here.
    + split; intros ? [=].
    + vm_compute. reflexivity.
    + vm_compute. reflexivity.
  - apply (proj1 (proj2 compare_rates_flags_above_tolerance)).
    vm_compute. reflexivity.
  - apply (proj1 (proj2 (proj2 compare_rates_flags_above_tolerance)) 500). lia.
Defined.

(** The claim as stated fails at its boundary: a billing row whose rate, 0.0499,
    is 0.0001 below the agreed 0.05 is flagged, because the difference of the
    two binary64 numbers is 0.00010000000000000286. *)
Lemma rate_one_tolerance_apart_is_flagged :
  Contract.agreed_rate contract_C100 = 0.05%float ∧
  Billing.billed_rate invoice_0499 = 0.0499%float ∧
  abs (0.05 - 0.0499)%float = 0.00010000000000000286%float ∧
  discrepancies_of None None [contract_C100] [invoice_0499]
  = [discrepancy contract_C100 invoice_0499] ∧
  starts_with "Found 1 rate discrepancies:"
              (compare_rates invoice_0499_files None None) = true.
Proof. repeat split; by vm_compute. Qed.

(** ** C3: completeness of detect_missing_charges *)

(** C3.  A contract of the input is among the missing charges if and only if
    no billing row has its [(customer_id, service_type)] pair; one billing row
    with the pair, whatever its rate, quantity or charge, keeps the contract
    out. *)
Theorem missing_charge_iff_no_billing_row :
  ∀ contracts billing_df contract,
    contract ∈ contracts →
    (contract ∈ missing_charges contracts billing_df
     ↔ ¬ ∃ row, row ∈ billing_df ∧ billing_key row = contract_key contract) ∧
    (∀ row, row ∈ billing_df → billing_key row = contract_key contract →
            contract ∉ missing_charges contracts billing_df).
Proof.
  intros contracts billing_df contract Hin.
  rewrite missing_charges_filter, list_elem_of_filter, elem_of_billed_services.
  split; [naive_solver|].
  intros row Hrow Hkey [Hno _]%list_elem_of_filter. apply Hno.
  apply elem_of_billed_services. eauto.
Qed.

Lemma missing_charge_iff_no_billing_row_witness :
  contract_C100 ∈ missing_charges [contract_C100] [] ∧
  contract_C100 ∉ missing_charges [contract_C100] [invoice_1].
Proof.
  assert (contract_C100 ∈ [contract_C100]) as Hin by apply list_elem_of_here.
  split.
  - apply (proj1 (missing_charge_iff_no_billing_row [contract_C100] [] _ Hin)).
    intros (row & Hrow & _). by apply not_elem_of_nil in Hrow.
  - apply (proj2 (missing_charge_iff_no_billing_row [contract_C100] [invoice_1] _ Hin)
             invoice_1).
    + apply list_elem_of_here.
    + reflexivity.
Defined.

(** ** C8: the last contract of a key wins *)

(** C8.  When several contracts of the input share a key, every discrepancy
    for a billing row of that key carries the agreed rate of the one that comes
    last in the input: the contracts after it have other keys. *)
Theorem compare_rates_last_contract_wins :
  ∀ customer_id service_type before contract after billing_df d,
    Forall (λ c, contract_key c ≠ contract_key contract) after →
    d ∈ discrepancies_of customer_id service_type (before ++ contract :: after) billing_df →
    discrepancy_key d = contract_key contract →
    Discrepancy.agreed_rate d = Contract.agreed_rate contract.
Proof.
  intros customer_id service_type before contract after billing_df d Hafter Hd Hkey.
  apply elem_of_discrepancies_of in Hd as (row & c & _ & _ & Hc & _ & ->).
  unfold discrepancy_key in Hkey. simpl in *. change (billing_key row = contract_key contract) in Hkey.
  rewrite contract_lookup_last, Hkey, filter_app, filter_cons_True in Hc by done.
  assert (filter (λ c, contract_key c = contract_key contract) after = []) as Hnil.
  { clear Hc. induction Hafter as [|c' after Hc' _ IH]; [done|].
    by rewrite filter_cons_False. }
  rewrite Hnil, last_snoc in Hc. by injection Hc as <-.
Qed.

Lemma discrepancy_renewed_emitted :
  discrepancy contract_C100_renewed invoice_1
    ∈ discrepancies_of None None [contract_C100; contract_C100_renewed] [invoice_1].
Proof.
  apply elem_of_discrepancies_of. exists invoice_1, contract_C100_renewed.
  split; [apply list_elem_of_here|]. split; [split; intros ? [=]|].
  split; [by vm_compute|]. split; [by vm_compute|done].
Qed.

Lemma compare_rates_last_contract_wins_witness :
  Discrepancy.agreed_rate (discrepancy contract_C100_renewed invoice_1)
  = Contract.agreed_rate contract_C100_renewed.
Proof.
  apply (compare_rates_last_contract_wins None None [contract_C100]
           contract_C100_renewed [] [invoice_1]).
  - constructor.
  - exact discrepancy_renewed_emitted.
  - reflexivity.
Defined.

(** ** detect_usage_mismatches: the aggregates and the loop *)

Lemma add_to_lookup (d : gmap key Z) k amount k' :
  add_to d k amount !! k'
  = if decide (k = k') then Some (default 0 (d !! k) + amount) else d !! k'.
Proof.
  unfold add_to. destruct (decide (k ∉ dom d)) as [Hk|Hk].
  - apply not_elem_of_dom in Hk. rewrite lookup_insert.
    case_decide; [|by rewrite lookup_insert_ne].
    by rewrite lookup_insert_eq, Hk.
  - rewrite lookup_insert. by case_decide.
Qed.

Lemma filter_key_nil {A} (kf : A → key) (l : list A) k :
  k ∉ kf <$> l → filter (λ x, kf x = k) l = [].
Proof.
  intros Hin. induction l as [|y l IHl]; [done|].
  rewrite filter_cons_False; [apply IHl|].
  - intros Hy. apply Hin. rewrite fmap_cons. by right.
  - intros Hy. apply Hin. rewrite fmap_cons, Hy. by left.
Qed.

Lemma foldr_add_snoc (l : list Z) z : foldr Z.add 0 (l ++ [z]) = foldr Z.add 0 l + z.
Proof. induction l as [|y l IH]; simpl; lia. Qed.

Lemma aggregate_lookup {A} (kf : A → key) (vf : A → Z) (l : list A) (k : key) :
  foldl (λ d x, add_to d (kf x) (vf x)) ∅ l !! k
  = if decide (k ∈ kf <$> l)
    then Some (foldr Z.add 0 (vf <$> filter (λ x, kf x = k) l))
    else None.
Proof.
  revert k. induction l as [|x l IH] using rev_ind; intros k.
  - simpl. rewrite lookup_empty. destruct (decide (k ∈ [])) as [H|H]; [|done].
    by apply not_elem_of_nil in H.
  - rewrite foldl_snoc, add_to_lookup, !IH.
    rewrite filter_app, !fmap_app, filter_cons, filter_nil. simpl.
    destruct (decide (kf x = k)) as [Heq|Hne].
    + destruct (decide (k ∈ (kf <$> l) ++ [kf x])) as [_|Hn];
        [|exfalso; apply Hn, elem_of_app; right; rewrite Heq; apply list_elem_of_here].
      simpl. rewrite foldr_add_snoc, Heq. f_equal.
      destruct (decide (k ∈ kf <$> l)) as [Hin|Hin]; simpl; [done|].
      rewrite (filter_key_nil kf l k Hin). simpl. lia.
    + simpl. rewrite app_nil_r.
      destruct (decide (k ∈ kf <$> l)) as [H1|H1];
        destruct (decide (k ∈ (kf <$> l) ++ [kf x])) as [H2|H2]; try done.
      * exfalso. apply H2, elem_of_app. by left.
      * exfalso. apply elem_of_app in H2 as [?|H2]; [done|].
        apply list_elem_of_singleton in H2. congruence.
Qed.

Lemma usage_lookup usage_logs k :
  default 0 (usage_by_customer_service usage_logs !! k) = recorded_total usage_logs k.
Proof.
  unfold usage_by_customer_service, recorded_total.
  rewrite (aggregate_lookup usage_key UsageLog.recorded_usage).
  destruct (decide (k ∈ usage_key <$> usage_logs)) as [Hin|Hin]; [done|].
  simpl. by rewrite (filter_key_nil usage_key usage_logs k Hin).
Qed.

Lemma billing_lookup billing_df k :
  default 0 (billing_by_customer_service billing_df !! k) = billed_total billing_df k.
Proof.
  unfold billing_by_customer_service, billed_total.
  rewrite (aggregate_lookup billing_key Billing.usage_quantity).
  destruct (decide (k ∈ billing_key <$> billing_df)) as [Hin|Hin]; [done|].
  simpl. by rewrite (filter_key_nil billing_key billing_df k Hin).
Qed.

Lemma usage_dom usage_logs k :
  k ∈ dom (usage_by_customer_service usage_logs) ↔ k ∈ usage_key <$> usage_logs.
Proof.
  rewrite elem_of_dom. unfold usage_by_customer_service.
  rewrite (aggregate_lookup usage_key UsageLog.recorded_usage).
  destruct (decide _) as [Hin|Hin]; split; by intros H'.
Qed.

Lemma billing_dom billing_df k :
  k ∈ dom (billing_by_customer_service billing_df) ↔ k ∈ billing_key <$> billing_df.
Proof.
  rewrite elem_of_dom. unfold billing_by_customer_service.
  rewrite (aggregate_lookup billing_key Billing.usage_quantity).
  destruct (decide _) as [Hin|Hin]; split; by intros H'.
Qed.

Lemma total_pos_in_keys {A} (kf : A → key) (vf : A → Z) (l : list A) k :
  0 < foldr Z.add 0 (vf <$> filter (λ x, kf x = k) l) → k ∈ kf <$> l.
Proof.
  induction l as [|x l IH]; simpl; [lia|].
  rewrite filter_cons. destruct (decide (kf x = k)) as [<-|Hne].
  - intros _. by left.
  - intros H. right. by apply IH.
Qed.

Lemma mismatches_omap h usage_logs billing_df :
  mismatches h usage_logs billing_df
  = omap (check_key (usage_by_customer_service usage_logs)
                    (billing_by_customer_service billing_df))
         (set_iter h (dom (usage_by_customer_service usage_logs)
                      ∪ dom (billing_by_customer_service billing_df))).
Proof.
  unfold mismatches.
  etrans; [apply (foldl_append_omap
    (check_key (usage_by_customer_service usage_logs)
               (billing_by_customer_service billing_df)))|done].
  intros acc k. unfold check_key.
  destruct (_ && _); [|by rewrite app_nil_r].
  destruct (_ <? _)%float; simpl; by rewrite ?app_nil_r.
Qed.

Lemma elem_of_set_iter (h : set_order) (s : gset key) (k : key) : k ∈ set_iter h s ↔ k ∈ s.
Proof. by rewrite (set_iter_perm h s), elem_of_elements. Qed.

Lemma elem_of_mismatches h usage_logs billing_df m :
  m ∈ mismatches h usage_logs billing_df
  ↔ ∃ k, 0 < recorded_total usage_logs k ∧ 0 < billed_total billing_df k ∧
         (10 <? difference_pct (recorded_total usage_logs k)
                                (billed_total billing_df k))%float = true ∧
         m = mismatch k (recorded_total usage_logs k) (billed_total billing_df k).
Proof.
  rewrite mismatches_omap, list_elem_of_omap. unfold check_key.
  split.
  - intros (k & _ & Hk). exists k. rewrite usage_lookup, billing_lookup in Hk.
    destruct (bool_decide (0 < recorded_total usage_logs k)) eqn:Hu; [|done].
    destruct (bool_decide (0 < billed_total billing_df k)) eqn:Hb; [|done].
    apply bool_decide_eq_true in Hu, Hb. simpl in Hk.
    destruct (_ <? _)%float; naive_solver.
  - intros (k & Hu & Hb & Hpct & ->). exists k. split.
    + apply elem_of_set_iter, elem_of_union. left. apply usage_dom.
      by apply (total_pos_in_keys usage_key UsageLog.recorded_usage).
    + rewrite usage_lookup, billing_lookup.
      rewrite !bool_decide_eq_true_2 by done. simpl. by rewrite Hpct.
Qed.

(** ** C5: the threshold of detect_usage_mismatches *)

(** C5.  With [usage] the sum of [recorded_usage] over the usage logs of a key
    and [billed] the sum of [usage_quantity] over its billing rows, the key gets
    a usage mismatch if and only if both sums are strictly positive and
    [abs(usage - billed) / max(usage, billed) * 100 > 10]; the finding carries
    the two sums.  A key that only one of the two sources has is never flagged.
    100 recorded against 89 billed is above the threshold, 100 against 91 is
    not. *)
Theorem usage_mismatch_iff_above_threshold :
  ∀ (h : set_order) usage_logs billing_df (k : key),
    let usage := recorded_total usage_logs k in
    let billed := billed_total billing_df k in
    ((∃ m, m ∈ mismatches h usage_logs billing_df ∧ mismatch_key m = k)
     ↔ 0 < usage ∧ 0 < billed ∧
       (10 <? int_truediv (Z.abs (usage - billed)) (Z.max usage billed) * 100)%float
       = true) ∧
    (∀ m, m ∈ mismatches h usage_logs billing_df → mismatch_key m = k →
          m = mismatch k usage billed) ∧
    (k ∉ usage_key <$> usage_logs ∨ k ∉ billing_key <$> billing_df →
     ∀ m, m ∈ mismatches h usage_logs billing_df → mismatch_key m ≠ k) ∧
    (10 <? difference_pct 100 89)%float = true ∧
    (10 <? difference_pct 100 91)%float = false.
Proof.
  intros h usage_logs billing_df k usage billed.
  assert (∀ m, m ∈ mismatches h usage_logs billing_df → mismatch_key m = k →
               0 < usage ∧ 0 < billed ∧
               (10 <? difference_pct usage billed)%float = true ∧
               m = mismatch k usage billed) as Hm.
  { intros m (k' & Hu & Hb & Hpct & ->)%elem_of_mismatches Hk.
    unfold mismatch_key in Hk. simpl in Hk. destruct k' as [c s]. simpl in Hk.
    subst k. done. }
  split; [|split; [|split; [|split]]].
  - split.
    + intros (m & Hin & Hk). destruct (Hm m Hin Hk) as (? & ? & ? & _). done.
    + intros (Hu & Hb & Hpct). exists (mismatch k usage billed). split.
      * apply elem_of_mismatches. by exists k.
      * by destruct k.
  - intros m Hin Hk. by destruct (Hm m Hin Hk) as (_ & _ & _ & ->).
  - intros Hk m Hin Hkey. destruct (Hm m Hin Hkey) as (Hu & Hb & _).
    destruct Hk as [Hk|Hk].
    + apply Hk, (total_pos_in_keys usage_key UsageLog.recorded_usage), Hu.
    + apply Hk, (total_pos_in_keys billing_key Billing.usage_quantity), Hb.
  - by vm_compute.
  - by vm_compute.
Qed.

Lemma usage_mismatch_iff_above_threshold_witness :
  (∃ m, m ∈ mismatches order_elements [usage_log_1] [invoice_usage_89]
        ∧ mismatch_key m = ("C100", "cloud_storage")) ∧
  ¬ (∃ m, m ∈ mismatches order_elements [usage_log_1] [invoice_usage_91]
          ∧ mismatch_key m = ("C100", "cloud_storage")) ∧
  (∀ m, m ∈ mismatches order_elements [usage_log_1] [] →
        mismatch_key m ≠ ("C100", "cloud_storage")).
Proof.
  split; [|split].
  - apply (proj1 (usage_mismatch_iff_above_threshold order_elements
                    [usage_log_1] [invoice_usage_89] ("C100", "cloud_storage"))).
    by vm_compute.
  - intros H.
    apply (proj1 (usage_mismatch_iff_above_threshold order_elements
                    [usage_log_1] [invoice_usage_91] ("C100", "cloud_storage"))) in H.
    destruct H as (_ & _ & H). by vm_compute in H.
  - apply (proj1 (proj2 (proj2 (usage_mismatch_iff_above_threshold order_elements
                    [usage_log_1] [] ("C100", "cloud_storage"))))).
    right. apply not_elem_of_nil.
Defined.

(** ** Reports *)

Lemma string_app_assoc (s1 s2 s3 : string) : (s1 +:+ s2) +:+ s3 = s1 +:+ s2 +:+ s3.
Proof.
  induction s1 as [|a s1 IH]; [done|].
  change (String a ((s1 +:+ s2) +:+ s3) = String a (s1 +:+ s2 +:+ s3)).
  by rewrite IH.
Qed.

Lemma string_app_nil_r (s : string) : s +:+ "" = s.
Proof.
  induction s as [|a s IH]; [done|].
  change (String a (s +:+ "") = String a s). by rewrite IH.
Qed.

Lemma append_all_concat report lines :
  append_all report lines = report +:+ String.concat "" lines.
Proof.
  unfold append_all. revert report.
  induction lines as [|x lines IH]; intros report.
  - simpl. by rewrite string_app_nil_r.
  - change (foldl String.append (report +:+ x) lines
            = report +:+ String.concat "" (x :: lines)).
    rewrite IH, string_app_assoc. destruct lines as [|y lines]; [|done].
    simpl. by rewrite string_app_nil_r.
Qed.





Lemma starts_with_spec s report :
  starts_with s report = true ↔ ∃ after, report = s +:+ after.
Proof.
  revert report. induction s as [|a s IH]; intros report; simpl.
  - split; [|done]. intros _. by exists report.
  - destruct report as [|b report].
    + split; [done|]. by intros (after & [=]).
    + rewrite andb_true_iff, bool_decide_eq_true, IH. split.
      * intros (-> & after & ->). by exists after.
      * intros (after & [= -> ->]). eauto.
Qed.

Lemma contains_spec s report : contains s report = true ↔ occurs_in s report.
Proof.
  induction report as [|b report IH]; simpl.
  - rewrite orb_false_r, starts_with_spec. split.
    + intros (after & ->). exists "", after. done.
    + intros ([|c before] & after & Heq); [by exists after|done].
  - rewrite orb_true_iff, IH, starts_with_spec. split.
    + intros [(after & ->)|(before & after & ->)].
      * by exists "", after.
      * by exists (String b before), after.
    + intros ([|c before] & after & Heq).
      * left. by exists after.
      * right. injection Heq as -> ->. by exists before, after.
Qed.

Lemma rate_report_text l :
  l ≠ [] →
  rate_report l
  = ("Found " +:+ pretty (length l) +:+ " rate discrepancies:" +:+ NL +:+ NL) +:+
    ("Total Revenue Impact: $" +:+ format_2f (total_impact l) +:+ NL +:+ NL) +:+
    String.concat "" (imap discrepancy_detail (take 10 l)) +:+
    (if decide (10 < length l)%nat
     then "... and " +:+ pretty (length l - 10)%nat +:+ " more discrepancies." +:+ NL
     else "").
Proof.
  intros Hl. destruct l as [|d l]; [done|]. unfold rate_report.
  destruct (decide _); rewrite append_all_concat, !string_app_assoc;
    by rewrite ?string_app_nil_r.
Qed.

Lemma missing_charges_report_text l :
  l ≠ [] →
  missing_charges_report l
  = ("Found " +:+ pretty (length l) +:+ " missing charges:" +:+ NL +:+ NL) +:+
    String.concat "" (imap missing_charge_detail (take 10 l)) +:+
    (if decide (10 < length l)%nat
     then "... and " +:+ pretty (length l - 10)%nat +:+ " more missing charges." +:+ NL
     else "").
Proof.
  intros Hl. destruct l as [|d l]; [done|]. unfold missing_charges_report.
  destruct (decide _); rewrite append_all_concat, !string_app_assoc;
    by rewrite ?string_app_nil_r.
Qed.

Lemma duplicates_report_text l groups :
  l ≠ [] →
  duplicates_report l groups
  = ("Found " +:+ pretty (length l) +:+ " duplicate entries:" +:+ NL +:+ NL) +:+
    String.concat "" (imap duplicate_group_detail (take 10 groups)) +:+
    (if decide (10 < length groups)%nat
     then "... and " +:+ pretty (length groups - 10)%nat +:+ " more duplicate groups." +:+ NL
     else "").
Proof.
  intros Hl. destruct l as [|d l]; [done|]. unfold duplicates_report.
  destruct (decide _); rewrite append_all_concat, !string_app_assoc;
    by rewrite ?string_app_nil_r.
Qed.

Lemma mismatches_report_text l :
  l ≠ [] →
  mismatches_report l
  = ("Found " +:+ pretty (length l) +:+ " significant usage mismatches:" +:+ NL +:+ NL) +:+
    String.concat "" (imap mismatch_detail (take 10 l)) +:+
    (if decide (10 < length l)%nat
     then "... and " +:+ pretty (length l - 10)%nat +:+ " more mismatches." +:+ NL
     else "").
Proof.
  intros Hl. destruct l as [|d l]; [done|]. unfold mismatches_report.
  destruct (decide _); rewrite append_all_concat, !string_app_assoc;
    by rewrite ?string_app_nil_r.
Qed.



(** ** C9: what the reports state *)




(** ** C6: a record set that is absent *)

(** C6, as the code has it.  A detector that loads a record set whose file
    does not exist returns the message that this file was not found (the first
    such file in the order in which it loads them) in place of a report of
    findings.  A detector's result depends only on the record sets it loads:
    whatever happens to the others, absent or not, it returns the same report.
    So without usage logs [detect_usage_mismatches] returns "Usage logs file
    not found." and the other three are unaffected; without contracts both
    [compare_rates] and [detect_missing_charges] return "Contracts file not
    found." and the other two are unaffected. *)
Theorem absent_record_set_affects_its_readers_only :
  ∀ (h : set_order) fs d,
    (∀ before r after,
       loads d = before ++ r :: after →
       Forall (λ r', ¬ absent fs r') before →
       absent fs r →
       run h fs d = not_found r) ∧
    (∀ fs', Forall (same_record_set fs fs') (loads d) → run h fs d = run h fs' d).
Proof.
  intros h [contracts billing usage] d. split.
  - intros before r after Hloads Hbefore Habsent.
    destruct d as [c s| | |]; simpl in Hloads;
      repeat (destruct before as [|? before];
              simplify_eq/=; try (by destruct before));
      repeat match goal with
             | H : Forall _ (_ :: _) |- _ => apply Forall_cons in H as [? H]
             end;
      simpl in *; subst; try done.
    + by destruct contracts.
    + by destruct contracts.
    + by destruct usage.
  - intros [contracts' billing' usage'] Hsame.
    destruct d as [c s| | |]; simpl in Hsame;
      repeat match goal with
             | H : Forall _ (_ :: _) |- _ => apply Forall_cons in H as [? H]
             end;
      simpl in *; by subst.
Qed.

Lemma absent_record_set_affects_its_readers_only_witness :
  run order_elements no_usage_files DetectUsageMismatches = "Usage logs file not found." ∧
  run order_elements no_usage_files (CompareRates None None)
  = run order_elements scenario_files (CompareRates None None) ∧
  run order_elements no_usage_files DetectMissingCharges
  = run order_elements scenario_files DetectMissingCharges ∧
  run order_elements no_usage_files DetectDuplicateEntries
  = run order_elements scenario_files DetectDuplicateEntries.
Proof.
  split; [|split; [|split]].
  - apply (proj1 (absent_record_set_affects_its_readers_only
                    order_elements no_usage_files DetectUsageMismatches)
             [] UsageLogs [BillingRecords]); [reflexivity|constructor|reflexivity].
  - apply (proj2 (absent_record_set_affects_its_readers_only
                    order_elements no_usage_files (CompareRates None None))).
    repeat constructor.
  - apply (proj2 (absent_record_set_affects_its_readers_only
                    order_elements no_usage_files DetectMissingCharges)).
    repeat constructor.
  - apply (proj2 (absent_record_set_affects_its_readers_only
                    order_elements no_usage_files DetectDuplicateEntries)).
    repeat constructor.
Defined.

(** The claim as stated fails for its own second example: without the
    contracts file [compare_rates] is not the only detector affected, since
    [detect_missing_charges] loads the contracts too and returns the same
    message, not the missing charges it reports once the contracts are there. *)
Lemma missing_charges_needs_contracts_too :
  run order_elements no_contracts_files (CompareRates None None)
  = "Contracts file not found." ∧
  run order_elements no_contracts_files DetectMissingCharges
  = "Contracts file not found." ∧
  run order_elements
      {| contracts_json := Some [contract_C100];
         billing_records_csv := billing_records_csv no_contracts_files;
         usage_logs_json := usage_logs_json no_contracts_files |}
      DetectMissingCharges
  = "Found 1 missing charges:" +:+ NL +:+ NL +:+
    "Missing Charge 1:" +:+ NL +:+
    "  Contract ID: 1" +:+ NL +:+
    "  Customer: C100" +:+ NL +:+
    "  Service: cloud_storage" +:+ NL +:+
    "  Agreed Rate: $0.05" +:+ NL +:+
    "  Contract Period: 2024-01-01 to 2024-12-31" +:+ NL +:+ NL.
Proof. split; [|split]; by vm_compute. Qed.

(** ** C10: determinism *)

Lemma mismatches_Permutation (h1 h2 : set_order) usage_logs billing_df :
  mismatches h1 usage_logs billing_df ≡ₚ mismatches h2 usage_logs billing_df.
Proof.
  rewrite !mismatches_omap. apply omap_Permutation.
  by rewrite !set_iter_perm.
Qed.

(** C10, as the code has it.  [compare_rates], [detect_missing_charges] and
    [detect_duplicate_entries] return the same report on the same files in
    every run.  [detect_usage_mismatches] goes through a set of keys: two runs
    in which the interpreter goes through sets in the same order return the
    same report, and any two runs find the same mismatches, though not
    always in the same order. *)
Theorem detectors_deterministic_up_to_set_order :
  ∀ (h1 h2 : set_order) fs d,
    (d ≠ DetectUsageMismatches → run h1 fs d = run h2 fs d) ∧
    ((∀ s, set_iter h1 s = set_iter h2 s) → run h1 fs d = run h2 fs d) ∧
    (∀ usage_logs billing_df,
       mismatches h1 usage_logs billing_df ≡ₚ mismatches h2 usage_logs billing_df).
Proof.
  intros h1 h2 fs d. split; [|split].
  - by destruct d.
  - intros Hsame. destruct d; try done. simpl. unfold detect_usage_mismatches.
    destruct (usage_logs_json fs) as [usage_logs|]; [|done].
    destruct (billing_records_csv fs) as [billing_df|]; [|done].
    by rewrite !mismatches_omap, Hsame.
  - apply mismatches_Permutation.
Qed.

Lemma detectors_deterministic_up_to_set_order_witness :
  run order_elements two_mismatch_files DetectDuplicateEntries
  = run order_reversed two_mismatch_files DetectDuplicateEntries ∧
  run order_elements two_mismatch_files DetectUsageMismatches
  = run order_elements two_mismatch_files DetectUsageMismatches.
Proof.
  split.
  - by apply (proj1 (detectors_deterministic_up_to_set_order
                       order_elements order_reversed two_mismatch_files
                       DetectDuplicateEntries)).
  - by apply (proj1 (proj2 (detectors_deterministic_up_to_set_order
                       order_elements order_elements two_mismatch_files
                       DetectUsageMismatches))).
Defined.

(** The claim as stated fails for [detect_usage_mismatches]: on the same
    files, two orders of going through the set of keys give the two mismatches
    in opposite orders, and two different reports. *)
Lemma usage_mismatches_order_depends_on_set_order :
  mismatches order_elements [usage_log_1; usage_log_2]
             [invoice_usage_89; invoice_bandwidth_50]
  = reverse (mismatches order_reversed [usage_log_1; usage_log_2]
                        [invoice_usage_89; invoice_bandwidth_50]) ∧
  length (mismatches order_elements [usage_log_1; usage_log_2]
                     [invoice_usage_89; invoice_bandwidth_50]) = 2%nat ∧
  Mismatch.customer_id <$> mismatches order_elements [usage_log_1; usage_log_2]
                             [invoice_usage_89; invoice_bandwidth_50]
  ≠ Mismatch.customer_id <$> mismatches order_reversed [usage_log_1; usage_log_2]
                               [invoice_usage_89; invoice_bandwidth_50] ∧
  run order_elements two_mismatch_files DetectUsageMismatches
  ≠ run order_reversed two_mismatch_files DetectUsageMismatches.
Proof. repeat split; by vm_compute. Qed.

(** ** Comparisons *)

Lemma cmp_refl {A} (cmp : A → A → comparison) (L : cmp_laws cmp) x : cmp x x = Eq.
Proof. pose proof (cmp_antisym cmp L x x) as H. by destruct (cmp x x). Qed.

Lemma cmp_eq_r {A} (cmp : A → A → comparison) (L : cmp_laws cmp) x y z c :
  cmp x y = c → cmp y z = Eq → cmp x z = c.
Proof.
  intros Hxy Hyz.
  pose proof (cmp_antisym cmp L y z) as Hzy. rewrite Hyz in Hzy. simpl in Hzy.
  pose proof (cmp_antisym cmp L x y) as Hyx. rewrite Hxy in Hyx.
  pose proof (cmp_eq_l cmp L z y x _ Hzy Hyx) as Hzx.
  pose proof (cmp_antisym cmp L z x) as Hxz. rewrite Hzx in Hxz.
  rewrite Hxz. by destruct c.
Qed.

Lemma cmp_gt_trans {A} (cmp : A → A → comparison) (L : cmp_laws cmp) x y z :
  cmp x y = Gt → cmp y z = Gt → cmp x z = Gt.
Proof.
  intros Hxy Hyz.
  pose proof (cmp_antisym cmp L x y) as Hyx. rewrite Hxy in Hyx.
  pose proof (cmp_antisym cmp L y z) as Hzy. rewrite Hyz in Hzy.
  pose proof (cmp_lt_trans cmp L z y x Hzy Hyx) as Hzx.
  pose proof (cmp_antisym cmp L z x) as Hxz. by rewrite Hzx in Hxz.
Qed.

Lemma cmp_not_gt_trans {A} (cmp : A → A → comparison) (L : cmp_laws cmp) x y z :
  cmp x y ≠ Gt → cmp y z ≠ Gt → cmp x z ≠ Gt.
Proof.
  intros Hxy Hyz.
  destruct (cmp x y) eqn:H1; [| |done]; destruct (cmp y z) eqn:H2; try done.
  - by rewrite (cmp_eq_l cmp L x y z _ H1 H2).
  - by rewrite (cmp_eq_l cmp L x y z _ H1 H2).
  - by rewrite (cmp_eq_r cmp L x y z _ H1 H2).
  - by rewrite (cmp_lt_trans cmp L x y z H1 H2).
Qed.

Lemma lex_laws {A B} (cmp1 : A → A → comparison) (cmp2 : B → B → comparison) :
  cmp_laws cmp1 → cmp_laws cmp2 →
  cmp_laws (λ x y : A * B, lex (cmp1 x.1 y.1) (cmp2 x.2 y.2)).
Proof.
  intros L1 L2. split.
  - intros [a1 b1] [a2 b2]. simpl.
    rewrite (cmp_antisym cmp1 L1 a1 a2), (cmp_antisym cmp2 L2 b1 b2).
    by destruct (cmp1 a1 a2).
  - intros [a1 b1] [a2 b2] [a3 b3] c. simpl.
    destruct (cmp1 a1 a2) eqn:H12; try done. simpl. intros Hb.
    destruct (cmp1 a2 a3) eqn:H23; simpl.
    + rewrite (cmp_eq_l cmp1 L1 _ _ _ _ H12 H23). simpl. by apply (cmp_eq_l cmp2 L2).
    + rewrite (cmp_eq_l cmp1 L1 _ _ _ _ H12 H23). done.
    + rewrite (cmp_eq_l cmp1 L1 _ _ _ _ H12 H23). done.
  - intros [a1 b1] [a2 b2] [a3 b3]. simpl.
    destruct (cmp1 a1 a2) eqn:H12; try done; simpl;
      destruct (cmp1 a2 a3) eqn:H23; try done; simpl.
    + rewrite (cmp_eq_l cmp1 L1 _ _ _ _ H12 H23). simpl. by apply (cmp_lt_trans cmp2 L2).
    + rewrite (cmp_eq_l cmp1 L1 _ _ _ _ H12 H23). done.
    + rewrite (cmp_eq_r cmp1 L1 _ _ _ _ H12 H23). done.
    + rewrite (cmp_lt_trans cmp1 L1 _ _ _ H12 H23). done.
Qed.

Lemma cmp_laws_key {A B} (f : A → B) (cmp : B → B → comparison) :
  cmp_laws cmp → cmp_laws (λ x y, cmp (f x) (f y)).
Proof.
  intros L. split.
  - intros x y. apply (cmp_antisym cmp L).
  - intros x y z c. apply (cmp_eq_l cmp L).
  - intros x y z. apply (cmp_lt_trans cmp L).
Qed.

Lemma cmp_laws_ext {A} (cmp cmp' : A → A → comparison) :
  (∀ x y, cmp x y = cmp' x y) → cmp_laws cmp' → cmp_laws cmp.
Proof.
  intros Hext L. split.
  - intros x y. rewrite !Hext. apply (cmp_antisym cmp' L).
  - intros x y z c. rewrite !Hext. apply (cmp_eq_l cmp' L).
  - intros x y z. rewrite !Hext. apply (cmp_lt_trans cmp' L).
Qed.

Lemma Z_compare_laws : cmp_laws Z.compare.
Proof.
  split.
  - intros x y. apply Z.compare_antisym.
  - intros x y z c ->%Z.compare_eq. done.
  - intros x y z. rewrite !Z.compare_lt_iff. lia.
Qed.

Lemma string_compare_laws : cmp_laws String.compare.
Proof.
  split.
  - intros x y. apply String.compare_antisym.
  - intros x y z c ->%String.compare_eq_iff. done.
  - intros x y z Hxy Hyz.
    assert (String.le x z) as Hle.
    { trans y; unfold String.le, String.leb; [by rewrite Hxy|by rewrite Hyz]. }
    unfold String.le, String.leb in Hle.
    destruct (String.compare x z) eqn:Hxz; [|done|done].
    apply String.compare_eq_iff in Hxz as ->.
    rewrite String.compare_antisym, Hxy in Hyz. done.
Qed.

Lemma rank_order_laws : cmp_laws rank_order.
Proof.
  apply (lex_laws Z.compare (λ x y : Z * Z, lex (x.1 ?= y.1) (x.2 ?= y.2)));
    [apply Z_compare_laws|].
  apply (lex_laws Z.compare Z.compare); apply Z_compare_laws.
Qed.

(** ** The order and the equality of floats *)

Lemma SFcompare_refl x :
  x ≠ S754_nan → SFcompare x x = Some Eq.
Proof.
  destruct x as [[]|[]| |[] m e]; try done; intros _; simpl;
    by rewrite Z.compare_refl, Pos.compare_cont_refl.
Qed.

Lemma is_nan_spec x :
  is_nan x = match Prim2SF x with S754_nan => true | _ => false end.
Proof.
  unfold is_nan. rewrite FloatAxioms.eqb_spec. unfold SFeqb.
  destruct (Prim2SF x) as [[]|[]| |[] m e] eqn:Hx; try done;
    by rewrite SFcompare_refl.
Qed.

Lemma float_order_rank x y : float_order x y = rank_order (float_rank x) (float_rank y).
Proof.
  unfold float_order. rewrite !is_nan_spec, FloatAxioms.ltb_spec, FloatAxioms.eqb_spec.
  unfold float_rank, SFltb, SFeqb, rank_order.
  destruct (Prim2SF x) as [[]|[]| |[] m1 e1], (Prim2SF y) as [[]|[]| |[] m2 e2];
    try done; simpl.
  - rewrite Z.compare_opp, (Z.compare_antisym e1 e2).
    destruct (e1 ?= e2); simpl; try done.
    change (m1 ?= m2)%positive with (PosDef.Pos.compare_cont Eq m1 m2).
    by destruct (PosDef.Pos.compare_cont Eq m1 m2).
  - destruct (e1 ?= e2); simpl; try done.
    change (m1 ?= m2)%positive with (PosDef.Pos.compare_cont Eq m1 m2).
    by destruct (PosDef.Pos.compare_cont Eq m1 m2).
Qed.

Lemma float_order_laws : cmp_laws float_order.
Proof.
  apply (cmp_laws_ext _ (λ x y, rank_order (float_rank x) (float_rank y))).
  - apply float_order_rank.
  - apply (cmp_laws_key float_rank), rank_order_laws.
Qed.

Lemma float_same_order x y : float_same x y = true ↔ float_order x y = Eq.
Proof.
  unfold float_same, float_order. rewrite !is_nan_spec, FloatAxioms.eqb_spec, FloatAxioms.ltb_spec.
  unfold SFltb, SFeqb.
  destruct (Prim2SF x) as [[]|[]| |[] m1 e1], (Prim2SF y) as [[]|[]| |[] m2 e2];
    try done; simpl.
  - destruct (e1 ?= e2); simpl; try done.
    by destruct (PosDef.Pos.compare_cont Eq m1 m2).
  - destruct (e1 ?= e2); simpl; try done.
    by destruct (PosDef.Pos.compare_cont Eq m1 m2).
Qed.

Lemma key_order_laws : cmp_laws key_order.
Proof.
  apply (cmp_laws_ext _ (λ k1 k2, order_1 (key_columns k1) (key_columns k2))).
  - by intros [[[[[c1 s1] r1] u1] t1] d1] [[[[[c2 s2] r2] u2] t2] d2].
  - apply (cmp_laws_key key_columns).
    apply (lex_laws String.compare order_2); [apply string_compare_laws|].
    apply (lex_laws String.compare order_3); [apply string_compare_laws|].
    apply (lex_laws float_order order_4); [apply float_order_laws|].
    apply (lex_laws Z.compare order_5); [apply Z_compare_laws|].
    apply (lex_laws float_order String.compare);
      [apply float_order_laws|apply string_compare_laws].
Qed.

Lemma same_key_order k1 k2 : same_key k1 k2 = true ↔ key_order k1 k2 = Eq.
Proof.
  destruct k1 as [[[[[c1 s1] r1] u1] t1] d1], k2 as [[[[[c2 s2] r2] u2] t2] d2].
  unfold same_key, key_order.
  rewrite !andb_true_iff, !bool_decide_eq_true, !float_same_order.
  split.
  - intros (((((-> & ->) & ->) & ->) & ->) & ->).
    by rewrite !(cmp_refl _ string_compare_laws), Z.compare_refl.
  - intros H.
    destruct (String.compare c1 c2) eqn:Hc; try done. simpl in H.
    destruct (String.compare s1 s2) eqn:Hs; try done. simpl in H.
    destruct (float_order r1 r2) eqn:Hr; try done. simpl in H.
    destruct (u1 ?= u2) eqn:Hu; try done. simpl in H.
    destruct (float_order t1 t2) eqn:Ht; try done. simpl in H.
    apply String.compare_eq_iff in Hc, Hs, H. apply Z.compare_eq in Hu.
    by subst.
Qed.

(** ** Stable insertion sort *)

Section stable_sort.
Context {A : Type} (le : A → A → bool).
Hypothesis le_total : ∀ x y, le x y = false → le y x = true.
Hypothesis le_trans : ∀ x y z, le x y = true → le y z = true → le x z = true.

Lemma insert_by_Permutation x l : insert_by le x l ≡ₚ x :: l.
Proof.
  induction l as [|y l IH]; simpl; [done|].
  destruct (le x y); [done|]. rewrite IH. apply Permutation_swap.
Qed.

Lemma stable_sort_Permutation l : stable_sort le l ≡ₚ l.
Proof.
  induction l as [|x l IH]; simpl; [done|].
  unfold stable_sort in *. simpl. by rewrite insert_by_Permutation, IH.
Qed.

Lemma insert_by_sorted x l :
  StronglySorted (λ a b, le a b = true) l →
  StronglySorted (λ a b, le a b = true) (insert_by le x l).
Proof.
  induction 1 as [|y l Hl IH Hy]; simpl.
  - repeat constructor.
  - destruct (le x y) eqn:Hxy.
    + constructor; [by constructor|]. constructor; [done|].
      eapply Forall_impl; [exact Hy|]. intros z Hz. by eapply le_trans.
    + constructor; [done|].
      rewrite insert_by_Permutation. constructor; [by apply le_total|done].
Qed.

Lemma stable_sort_sorted l : StronglySorted (λ a b, le a b = true) (stable_sort le l).
Proof.
  induction l as [|x l IH]; [constructor|]. by apply insert_by_sorted.
Qed.

(** Sorting keeps the order of any elements that are below one another. *)
Lemma insert_by_filter (P : A → Prop) `{∀ x, Decision (P x)} x l :
  (∀ a b, P a → P b → le a b = true) →
  filter P (insert_by le x l) = filter P (x :: l).
Proof.
  intros HP. induction l as [|y l IH]; simpl; [done|].
  destruct (le x y) eqn:Hxy; [done|].
  rewrite filter_cons, IH, !(filter_cons _ x), (filter_cons _ y).
  destruct (decide (P x)) as [Hx|Hx], (decide (P y)) as [Hy|Hy]; try done.
  rewrite (HP x y Hx Hy) in Hxy. done.
Qed.

Lemma stable_sort_filter (P : A → Prop) `{∀ x, Decision (P x)} l :
  (∀ a b, P a → P b → le a b = true) →
  filter P (stable_sort le l) = filter P l.
Proof.
  intros HP. induction l as [|x l IH]; [done|].
  unfold stable_sort in *. simpl. rewrite insert_by_filter by done.
  by rewrite !filter_cons, IH.
Qed.
End stable_sort.

Lemma key_le_total k1 k2 : key_le k1 k2 = false → key_le k2 k1 = true.
Proof.
  unfold key_le. rewrite (cmp_antisym _ key_order_laws k1 k2).
  by destruct (key_order k1 k2).
Qed.

Lemma key_le_trans k1 k2 k3 :
  key_le k1 k2 = true → key_le k2 k3 = true → key_le k1 k3 = true.
Proof.
  unfold key_le. intros H12 H23.
  pose proof (cmp_not_gt_trans _ key_order_laws k1 k2 k3) as H.
  destruct (key_order k1 k2), (key_order k2 k3), (key_order k1 k3); try done;
    exfalso; by apply H.
Qed.

Lemma same_key_refl k : same_key k k = true.
Proof. apply same_key_order, (cmp_refl _ key_order_laws). Qed.

Lemma same_key_sym k1 k2 : same_key k1 k2 = same_key k2 k1.
Proof.
  apply eq_true_iff_eq. rewrite !same_key_order.
  rewrite (cmp_antisym _ key_order_laws k1 k2). by destruct (key_order k1 k2).
Qed.

Lemma same_key_trans k1 k2 k3 :
  same_key k1 k2 = true → same_key k2 k3 = true → same_key k1 k3 = true.
Proof. rewrite !same_key_order. apply (cmp_eq_l _ key_order_laws). Qed.

Lemma same_key_le k1 k2 : same_key k1 k2 = true → key_le k1 k2 = true.
Proof. rewrite same_key_order. unfold key_le. by intros ->. Qed.

Lemma sort_values_Permutation df : sort_values df ≡ₚ df.
Proof. apply stable_sort_Permutation. Qed.

Lemma sort_values_sorted df :
  StronglySorted (λ r1 r2, row_le r1 r2 = true) (sort_values df).
Proof.
  apply (stable_sort_sorted row_le).
  - intros x y. apply key_le_total.
  - intros x y z. apply key_le_trans.
Qed.

Lemma sort_values_rows_with_key k df :
  rows_with_key k (sort_values df) = rows_with_key k df.
Proof.
  apply (stable_sort_filter row_le). intros a b Ha Hb. apply same_key_le.
  apply (same_key_trans _ k); [done|]. by rewrite same_key_sym.
Qed.

(** ** detect_duplicate_entries: the mask, the sort and the groups *)

Lemma select_mask {A} (Q : A → Prop) `{∀ x, Decision (Q x)} (l : list A) :
  select l (map (λ x, bool_decide (Q x)) l) = filter Q l.
Proof.
  unfold select. induction l as [|x l IH]; [done|].
  change (fst <$> filter (λ rb : A * bool, rb.2 = true)
            ((x, bool_decide (Q x)) :: zip l (map (λ x, bool_decide (Q x)) l))
          = filter Q (x :: l)).
  rewrite !filter_cons. cbn [snd].
  destruct (decide (Q x)) as [Hx|Hx].
  - rewrite bool_decide_eq_true_2 by done.
    destruct (decide (true = true)); [|done]. rewrite fmap_cons. cbn [fst].
    by rewrite IH.
  - rewrite bool_decide_eq_false_2 by done.
    destruct (decide (false = true)); [done|]. by rewrite IH.
Qed.

Lemma select_duplicated df : select df (duplicated df) = filter (is_duplicate df) df.
Proof. apply (select_mask (is_duplicate df)). Qed.

Lemma rows_with_key_same k1 k2 df :
  same_key k1 k2 = true → rows_with_key k1 df = rows_with_key k2 df.
Proof.
  intros H12. apply list_filter_iff. intros row. split; intros H.
  - by apply (same_key_trans _ k1).
  - apply (same_key_trans _ k2); [done|]. by rewrite same_key_sym.
Qed.

Lemma is_duplicate_rows_with_key df row :
  is_duplicate df row ↔ (1 < length (rows_with_key (duplicate_columns row) df))%nat.
Proof. done. Qed.

Lemma is_duplicate_same df r1 r2 :
  same_key (duplicate_columns r1) (duplicate_columns r2) = true →
  is_duplicate df r1 → is_duplicate df r2.
Proof.
  intros H12. rewrite !is_duplicate_rows_with_key.
  by rewrite (rows_with_key_same _ _ df H12).
Qed.

Lemma duplicates_Permutation df : duplicates df ≡ₚ filter (is_duplicate df) df.
Proof. unfold duplicates. by rewrite sort_values_Permutation, select_duplicated. Qed.

Lemma elem_of_duplicates df row : row ∈ duplicates df ↔ row ∈ df ∧ is_duplicate df row.
Proof. rewrite duplicates_Permutation, list_elem_of_filter. naive_solver. Qed.

(** The rows of a duplicated key come out of the mask and the sort as they
    went in: all of them, in the order of the input. *)
Lemma rows_with_key_duplicates df row :
  is_duplicate df row →
  rows_with_key (duplicate_columns row) (duplicates df)
  = rows_with_key (duplicate_columns row) df.
Proof.
  intros Hdup. unfold duplicates.
  rewrite sort_values_rows_with_key, select_duplicated.
  unfold rows_with_key. apply filter_filter_absorb.
  intros x Hx. apply (is_duplicate_same df row x); [|done]. by rewrite same_key_sym.
Qed.

Lemma first_of_each_key_subseteq df row : row ∈ first_of_each_key df → row ∈ df.
Proof.
  revert row. induction df as [|r df IH]; intros row; simpl; [done|].
  rewrite elem_of_cons, list_elem_of_filter. intros [->|[_ H]]; [by left|].
  right. by apply IH.
Qed.

Lemma first_of_each_key_cover df row :
  row ∈ df →
  ∃ first, first ∈ first_of_each_key df ∧
           same_key (duplicate_columns first) (duplicate_columns row) = true.
Proof.
  induction df as [|r df IH]; simpl; [by intros ?%not_elem_of_nil|].
  intros [->|Hin]%elem_of_cons.
  - exists r. split; [by left|apply same_key_refl].
  - destruct (IH Hin) as (first & Hfirst & Hsame).
    destruct (same_key (duplicate_columns first) (duplicate_columns r)) eqn:Hr.
    + exists r. split; [by left|].
      apply (same_key_trans _ (duplicate_columns first)); [|done].
      by rewrite same_key_sym.
    + exists first. split; [|done]. right. by apply list_elem_of_filter.
Qed.

Lemma filter_nil_intro {A} (P : A → Prop) `{∀ x, Decision (P x)} (l : list A) :
  (∀ x, x ∈ l → ¬ P x) → filter P l = [].
Proof.
  intros Hl. induction l as [|x l IH]; [done|].
  rewrite filter_cons_False by (apply Hl; by left).
  apply IH. intros y Hy. apply Hl. by right.
Qed.

Lemma length_filter_filter {A} (P Q : A → Prop) `{∀ x, Decision (P x)}
    `{∀ x, Decision (Q x)} (l : list A) :
  (length (filter P (filter Q l)) ≤ length (filter P l))%nat.
Proof.
  induction l as [|x l IH]; [done|].
  rewrite (filter_cons Q), (filter_cons P).
  destruct (decide (Q x)), (decide (P x)); rewrite ?filter_cons;
    repeat case_decide; simpl; try done; lia.
Qed.

Lemma first_of_each_key_once df k :
  (length (rows_with_key k (first_of_each_key df)) ≤ 1)%nat.
Proof.
  induction df as [|r df IH]; [simpl; lia|].
  unfold rows_with_key in *. cbn [first_of_each_key]. rewrite filter_cons.
  destruct (decide (same_key (duplicate_columns r) k = true)) as [Hr|Hr].
  - rewrite filter_nil_intro; [simpl; lia|].
    intros x [Hx _]%list_elem_of_filter Hk.
    rewrite (same_key_trans _ k) in Hx; [done|done|]. by rewrite same_key_sym.
  - etrans; [apply length_filter_filter|exact IH].
Qed.

Lemma float_same_refl x : float_same x x = true.
Proof. unfold float_same, is_nan. by destruct (x =? x)%float. Qed.

Lemma first_same_same column x : float_same (first_same column x) x = true.
Proof.
  unfold first_same.
  destruct (filter (λ y, (y =? x)%float = true) column) as [|y l] eqn:Hf; simpl.
  - apply float_same_refl.
  - assert (y ∈ filter (λ y, (y =? x)%float = true) column) as Hy
      by (rewrite Hf; by left).
    apply list_elem_of_filter in Hy as [Hy _]. unfold float_same. by rewrite Hy.
Qed.

Lemma group_key_same df row :
  same_key (group_key df row) (duplicate_columns row) = true.
Proof.
  unfold same_key, group_key, duplicate_columns.
  rewrite !first_same_same, !bool_decide_eq_true_2; done.
Qed.

Lemma elem_of_groupby df k g :
  (k, g) ∈ groupby df
  ↔ ∃ row, row ∈ first_of_each_key
               (filter (λ row, key_has_nan (duplicate_columns row) = false) df) ∧
           k = group_key df row ∧ g = rows_with_key (duplicate_columns row) df.
Proof.
  unfold groupby. rewrite list_elem_of_fmap.
  setoid_rewrite sort_values_Permutation. unfold rows_with_key. naive_solver.
Qed.

Lemma key_order_same_l k1 k1' k2 :
  same_key k1 k1' = true → key_order k1 k2 = key_order k1' k2.
Proof.
  intros H%same_key_order.
  pose proof (cmp_antisym _ key_order_laws k1 k1') as H'. rewrite H in H'.
  symmetry. by apply (cmp_eq_l _ key_order_laws k1' k1 k2).
Qed.

Lemma key_order_same_r k1 k2 k2' :
  same_key k2 k2' = true → key_order k1 k2 = key_order k1 k2'.
Proof.
  intros H%same_key_order.
  symmetry. by apply (cmp_eq_r _ key_order_laws k1 k2 k2').
Qed.

Lemma strictly_sorted l :
  StronglySorted (λ r1 r2, row_le r1 r2 = true) l →
  (∀ k, (length (rows_with_key k l) ≤ 1)%nat) →
  StronglySorted
    (λ r1 r2, key_order (duplicate_columns r1) (duplicate_columns r2) = Lt) l.
Proof.
  induction 1 as [|r l Hl IH Hr]; intros Hone; [constructor|].
  constructor.
  - apply IH. intros k. specialize (Hone k). unfold rows_with_key in *.
    rewrite filter_cons in Hone. case_decide; simpl in Hone; lia.
  - apply Forall_forall. intros r' Hr'.
    pose proof (proj1 (Forall_forall _ _) Hr r' Hr') as Hle.
    unfold row_le, key_le in Hle.
    destruct (key_order (duplicate_columns r) (duplicate_columns r')) eqn:Ho;
      [|done|done].
    exfalso. apply same_key_order in Ho.
    specialize (Hone (duplicate_columns r')). unfold rows_with_key in Hone.
    rewrite filter_cons_True in Hone by done. simpl in Hone.
    assert (r' ∈ filter (λ row, same_key (duplicate_columns row)
                                  (duplicate_columns r') = true) l) as Hin.
    { apply list_elem_of_filter. split; [apply same_key_refl|done]. }
    destruct (filter _ l); [by apply not_elem_of_nil in Hin|simpl in Hone; lia].
Qed.

Lemma groupby_strictly_sorted df :
  StronglySorted (λ g1 g2, key_order g1.1 g2.1 = Lt) (groupby df).
Proof.
  unfold groupby.
  apply (StronglySorted_fmap _
    (λ r1 r2, key_order (duplicate_columns r1) (duplicate_columns r2) = Lt)).
  - intros r1 r2 H. simpl.
    by rewrite (key_order_same_l _ _ _ (group_key_same df r1)),
               (key_order_same_r _ _ _ (group_key_same df r2)).
  - apply strictly_sorted; [apply sort_values_sorted|].
    intros k. unfold rows_with_key.
    rewrite (sort_values_Permutation (first_of_each_key _)).
    apply first_of_each_key_once.
Qed.

Lemma float_same_nan x y : float_same x y = true → is_nan x = is_nan y.
Proof.
  unfold float_same. rewrite !is_nan_spec, FloatAxioms.eqb_spec. unfold SFeqb.
  by destruct (Prim2SF x) as [[]|[]| |[] m1 e1], (Prim2SF y) as [[]|[]| |[] m2 e2].
Qed.

Lemma same_key_has_nan k1 k2 : same_key k1 k2 = true → key_has_nan k1 = key_has_nan k2.
Proof.
  destruct k1 as [[[[[c1 s1] r1] u1] t1] d1], k2 as [[[[[c2 s2] r2] u2] t2] d2].
  unfold same_key, key_has_nan. rewrite !andb_true_iff.
  intros (((((_ & _) & Hr) & _) & Ht) & _).
  by rewrite (float_same_nan _ _ Hr), (float_same_nan _ _ Ht).
Qed.

(** ** detect_duplicate_entries: the clusters, and rows without a rate *)

(** X14.  On a billing frame in which no cell of [customer_id],
    [service_type], [usage_quantity] or [date] is empty, the rows
    [detect_duplicate_entries] counts as duplicate entries are exactly the rows
    whose business key (every column but [invoice_id]) another row has too,
    sorted by business key.  Its groups are sorted by business key, strictly,
    so that no two groups have the same key, and each group is made of all the
    rows of the input with its key, at least two.  Every duplicated row whose
    rate and charge are not missing is in a group; rows with a missing rate or
    charge (NaN) are counted but are in no group.  Two rows that differ in
    [invoice_id] only make one group of two. *)
Theorem duplicate_entries_clustered_by_business_key :
  ∀ billing_df,
    (∀ i i' c s r u t d,
       duplicate_columns (Billing.mk i c s r u t d)
       = duplicate_columns (Billing.mk i' c s r u t d)) ∧
    duplicates billing_df ≡ₚ filter (is_duplicate billing_df) billing_df ∧
    StronglySorted
      (λ r1 r2, key_le (duplicate_columns r1) (duplicate_columns r2) = true)
      (duplicates billing_df) ∧
    (∀ k g, (k, g) ∈ duplicate_groups billing_df →
            key_has_nan k = false ∧ g = rows_with_key k billing_df ∧
            (2 ≤ length g)%nat) ∧
    (∀ row, row ∈ billing_df → is_duplicate billing_df row →
            key_has_nan (duplicate_columns row) = false →
            ∃ k g, (k, g) ∈ duplicate_groups billing_df ∧ row ∈ g) ∧
    StronglySorted (λ g1 g2, key_order g1.1 g2.1 = Lt) (duplicate_groups billing_df) ∧
    duplicate_groups [invoice_A1; invoice_A2]
    = [(("A", "cloud_storage", 5%float, 100, 500%float, "2024-01-01"),
        [invoice_A1; invoice_A2])].
Proof.
  intros billing_df.
  split; [done|]. split; [apply duplicates_Permutation|].
  split; [apply sort_values_sorted|]. split; [|split; [|split]].
  - intros k g (row & Hrow & -> & ->)%elem_of_groupby.
    apply first_of_each_key_subseteq, list_elem_of_filter in Hrow as [Hnan Hrow].
    apply elem_of_duplicates in Hrow as [Hrow Hdup].
    pose proof (group_key_same (duplicates billing_df) row) as Hsame.
    split; [by rewrite (same_key_has_nan _ _ Hsame)|].
    rewrite (rows_with_key_duplicates _ _ Hdup). split.
    + apply rows_with_key_same. by rewrite same_key_sym.
    + unfold is_duplicate in Hdup. unfold rows_with_key. lia.
  - intros row Hrow Hdup Hnan.
    assert (row ∈ filter (λ row, key_has_nan (duplicate_columns row) = false)
                    (duplicates billing_df)) as Hin.
    { apply list_elem_of_filter. split; [done|]. by apply elem_of_duplicates. }
    destruct (first_of_each_key_cover _ _ Hin) as (first & Hfirst & Hsame).
    exists (group_key (duplicates billing_df) first),
           (rows_with_key (duplicate_columns first) (duplicates billing_df)).
    split.
    + apply elem_of_groupby. by exists first.
    + apply list_elem_of_filter. split.
      * by rewrite same_key_sym.
      * by apply elem_of_duplicates.
  - apply groupby_strictly_sorted.
  - by vm_compute.
Qed.

Lemma duplicate_entries_clustered_by_business_key_witness :
  ∃ k g, (k, g) ∈ duplicate_groups [invoice_A1; invoice_A2] ∧ invoice_A1 ∈ g.
Proof.
  apply (proj1 (proj2 (proj2 (proj2 (proj2
           (duplicate_entries_clustered_by_business_key [invoice_A1; invoice_A2])))))
           invoice_A1).
  - by left.
  - unfold is_duplicate. vm_compute. lia.
  - by vm_compute.
Defined.

(** C4.  The code does not do what the claim says for rows without a rate:
    the two rows below have the same business key and are counted as two
    duplicate entries, yet they form no group, so the report announces two
    duplicate entries and lists none. *)
Lemma rows_without_rate_form_no_cluster :
  same_key (duplicate_columns invoice_no_rate_1) (duplicate_columns invoice_no_rate_2)
  = true ∧
  duplicates [invoice_no_rate_1; invoice_no_rate_2]
  = [invoice_no_rate_1; invoice_no_rate_2] ∧
  duplicate_groups [invoice_no_rate_1; invoice_no_rate_2] = [] ∧
  detect_duplicate_entries
    {| contracts_json := None;
       billing_records_csv := Some [invoice_no_rate_1; invoice_no_rate_2];
       usage_logs_json := None |}
  = "Found 2 duplicate entries:" +:+ NL +:+ NL.
Proof. repeat split; by vm_compute. Qed.

(** ** C7: billing rows without a contract *)

Lemma omap_filter_None {A B} (f : A → option B) (P : A → Prop)
    `{∀ x, Decision (P x)} (l : list A) :
  (∀ x, ¬ P x → f x = None) → omap f (filter P l) = omap f l.
Proof.
  intros Hf. induction l as [|x l IH]; [done|].
  rewrite filter_cons. destruct (decide (P x)) as [Hx|Hx]; cbn; rewrite IH; [done|].
  by rewrite (Hf x Hx).
Qed.

Lemma filter_comm {A} (P Q : A → Prop) `{∀ x, Decision (P x)}
    `{∀ x, Decision (Q x)} (l : list A) :
  filter P (filter Q l) = filter Q (filter P l).
Proof.
  induction l as [|x l IH]; [done|].
  rewrite (filter_cons Q), (filter_cons P).
  destruct (decide (Q x)), (decide (P x)); rewrite ?filter_cons;
    repeat case_decide; try done; by rewrite IH.
Qed.

Lemma filter_ext_elem_of {A} (P Q : A → Prop) `{∀ x, Decision (P x)}
    `{∀ x, Decision (Q x)} (l : list A) :
  (∀ x, x ∈ l → P x ↔ Q x) → filter P l = filter Q l.
Proof.
  intros HPQ. induction l as [|x l IH]; [done|].
  rewrite !filter_cons, IH by (intros y Hy; apply HPQ; by right).
  destruct (decide (P x)) as [HP|HP], (decide (Q x)) as [HQ|HQ]; try done.
  - destruct HQ. apply HPQ; [by left|done].
  - destruct HP. apply HPQ; [by left|done].
Qed.

Lemma filter_billing_filter customer_id service_type (P : Billing.t → Prop)
    `{∀ x, Decision (P x)} billing_df :
  filter_billing customer_id service_type (filter P billing_df)
  = filter P (filter_billing customer_id service_type billing_df).
Proof.
  unfold filter_billing.
  destruct (truthy customer_id), (truthy service_type); try done.
  - by rewrite (filter_comm _ P), (filter_comm _ P).
  - by rewrite (filter_comm _ P).
  - by rewrite (filter_comm _ P).
Qed.

(** C7, as the code has it.  A billing row whose [(customer_id, service_type)]
    matches no contract gets no discrepancy from [compare_rates] and is
    referred to by no missing charge of [detect_missing_charges]; both
    detectors find exactly what they find on the input without such rows. *)
Theorem orphan_rows_invisible_to_rates_and_missing_charges :
  ∀ customer_id service_type contracts billing_df row,
    row ∈ billing_df →
    orphan contracts row →
    (∀ d, d ∈ discrepancies_of customer_id service_type contracts billing_df →
          discrepancy_key d ≠ billing_key row) ∧
    (∀ c, c ∈ missing_charges contracts billing_df →
          contract_key c ≠ billing_key row) ∧
    discrepancies_of customer_id service_type contracts
      (filter (λ r, ¬ orphan contracts r) billing_df)
    = discrepancies_of customer_id service_type contracts billing_df ∧
    missing_charges contracts (filter (λ r, ¬ orphan contracts r) billing_df)
    = missing_charges contracts billing_df.
Proof.
  intros customer_id service_type contracts billing_df row Hrow Horphan.
  split; [|split; [|split]].
  - intros d (row' & c & _ & _ & Hc & _ & ->)%elem_of_discrepancies_of Hkey.
    apply contract_lookup_Some in Hc as [Hc Hkc].
    apply (proj1 (Forall_forall _ _) Horphan c Hc).
    rewrite Hkc. exact Hkey.
  - intros c Hc. rewrite missing_charges_filter in Hc.
    apply list_elem_of_filter in Hc as [_ Hc].
    by apply (proj1 (Forall_forall _ _) Horphan c Hc).
  - unfold discrepancies_of. rewrite !rate_discrepancies_omap, filter_billing_filter.
    apply omap_filter_None. intros r Hr. apply dec_stable in Hr.
    unfold check_row.
    assert (contract_lookup (filter_contracts customer_id service_type contracts)
              !! billing_key r = None) as ->; [|done].
    apply contract_lookup_None. intros c [Hc _]%elem_of_filter_contracts.
    by apply (proj1 (Forall_forall _ _) Hr c Hc).
  - rewrite !missing_charges_filter. apply filter_ext_elem_of. intros c Hc.
    rewrite !elem_of_billed_services. split; intros Hno (r & Hr & Hk); apply Hno.
    + exists r. split; [|done]. apply list_elem_of_filter. split; [|done].
      intros Hor. by apply (proj1 (Forall_forall _ _) Hor c Hc).
    + apply list_elem_of_filter in Hr as [_ Hr]. eauto.
Qed.

Lemma orphan_rows_invisible_to_rates_and_missing_charges_witness :
  discrepancies_of None None [contract_C100] (filter (λ r, ¬ orphan [contract_C100] r)
                                                [invoice_A1; invoice_1])
  = discrepancies_of None None [contract_C100] [invoice_A1; invoice_1].
Proof.
  apply (proj1 (proj2 (proj2 (orphan_rows_invisible_to_rates_and_missing_charges
           None None [contract_C100] [invoice_A1; invoice_1] invoice_A1
           ltac:(by left) ltac:(by repeat constructor))))).
Defined.

(** The claim as stated fails in its last part: a billing row without a
    contract can still be a finding of another kind.  The two rows below match
    no contract, and [detect_duplicate_entries] reports them as a duplicate
    group. *)
Lemma orphan_rows_reported_as_duplicates :
  orphan [contract_C100] invoice_A1 ∧
  invoice_A1 ∈ duplicates [invoice_A1; invoice_A2] ∧
  occurs_in "Found 2 duplicate entries:" (detect_duplicate_entries orphan_duplicate_files) ∧
  occurs_in "Invoice IDs: 1, 2" (detect_duplicate_entries orphan_duplicate_files).
Proof.
  split; [by repeat constructor|]. split.
  - apply elem_of_duplicates. split; [by left|].
    unfold is_duplicate. vm_compute. lia.
  - rewrite <- !contains_spec. split; by vm_compute.
Qed.

(** ** Binary64 arithmetic: rounding, signs and comparisons *)

Lemma digits2_pos_size p : digits2_pos p = Pos.size p.
Proof. induction p; simpl; congruence. Qed.

Lemma dg_bounds p : 2 ^ (dg p - 1) <= Zpos p < 2 ^ dg p.
Proof.
  unfold dg. rewrite digits2_pos_size. split.
  - pose proof (Pos.size_le p) as H.
    assert (2 ^ Zpos (Pos.size p) <= 2 * Zpos p) as H'.
    { apply Pos2Z.pos_le_pos in H. rewrite Pos2Z.inj_pow, Pos2Z.inj_xO in H.
      exact H. }
    replace (Zpos (Pos.size p)) with (Z.pos (Pos.size p) - 1 + 1) in H' by lia.
    rewrite Z.pow_add_r in H' by lia. lia.
  - pose proof (Pos.size_gt p) as H.
    apply Pos2Z.pos_lt_pos in H. rewrite Pos2Z.inj_pow in H. exact H.
Qed.

Lemma dg_pos p : 1 <= dg p.
Proof. unfold dg. lia. Qed.

Lemma dg_lower p k : 2 ^ k <= Zpos p -> k + 1 <= dg p.
Proof.
  intros H. pose proof (dg_bounds p) as [_ Hu].
  destruct (Z_lt_le_dec k (dg p)) as [|Hle]; [lia|].
  exfalso. pose proof (dg_pos p).
  assert (2 ^ dg p <= 2 ^ k) by (apply Z.pow_le_mono_r; lia). lia.
Qed.

Lemma dg_upper p k : 0 <= k -> Zpos p < 2 ^ k -> dg p <= k.
Proof.
  intros Hk H. pose proof (dg_bounds p) as [Hl _]. pose proof (dg_pos p).
  destruct (Z_le_gt_dec (dg p) k) as [|Hgt]; [lia|].
  exfalso.
  assert (2 ^ k <= 2 ^ (dg p - 1)) by (apply Z.pow_le_mono_r; lia). lia.
Qed.

Lemma dg_mono p q : (p <= q)%positive -> dg p <= dg q.
Proof.
  intros H. pose proof (dg_bounds p) as [Hl _]. pose proof (dg_pos p).
  assert (2 ^ (dg p - 1) <= Zpos q) by lia.
  apply dg_lower in H1. lia.
Qed.

Lemma dg_mul p q : dg p + dg q - 1 <= dg (p * q).
Proof.
  pose proof (dg_bounds p) as [Hp _]. pose proof (dg_bounds q) as [Hq _].
  pose proof (dg_pos p). pose proof (dg_pos q).
  assert (2 ^ (dg p - 1 + (dg q - 1)) <= Zpos (p * q)) as H1.
  { rewrite Z.pow_add_r by lia. rewrite Pos2Z.inj_mul.
    apply Z.mul_le_mono_nonneg; lia. }
  apply dg_lower in H1. lia.
Qed.

(** shifting right *)
Lemma shr_1_m mrs : 0 <= shr_m mrs -> shr_m (shr_1 mrs) = shr_m mrs / 2.
Proof.
  destruct mrs as [m r s]. unfold shr_m at 1 3. intros Hm.
  rewrite <- Z.div2_div.
  destruct m as [|[p|p|]|p]; try reflexivity. lia.
Qed.

Lemma pow2_xO n : 2 ^ Zpos n~0 = 2 ^ Zpos n * 2 ^ Zpos n.
Proof. rewrite <- Z.pow_add_r by lia. f_equal. lia. Qed.

Lemma pow2_xI n : 2 ^ Zpos n~1 = 2 * (2 ^ Zpos n * 2 ^ Zpos n).
Proof.
  rewrite <- pow2_xO. rewrite <- (Z.pow_1_r 2) at 2.
  rewrite <- Z.pow_add_r by lia. f_equal.
Qed.

Lemma iter_shr_1_m n : forall mrs,
  0 <= shr_m mrs -> shr_m (SpecFloat.iter_pos shr_1 n mrs) = shr_m mrs / 2 ^ Zpos n.
Proof.
  induction n as [n IH|n IH|]; intros mrs Hm; cbn [SpecFloat.iter_pos].
  - assert (0 < 2 ^ Zpos n) as Hp by (apply Z.pow_pos_nonneg; lia).
    assert (0 <= shr_m (shr_1 mrs)) as H1.
    { rewrite shr_1_m by lia. apply Z.div_pos; lia. }
    assert (0 <= shr_m (SpecFloat.iter_pos shr_1 n (shr_1 mrs))) as H2.
    { rewrite IH by lia. apply Z.div_pos; lia. }
    rewrite IH, IH, shr_1_m by lia.
    rewrite !Z.div_div by lia. rewrite pow2_xI. reflexivity.
  - assert (0 < 2 ^ Zpos n) as Hp by (apply Z.pow_pos_nonneg; lia).
    assert (0 <= shr_m (SpecFloat.iter_pos shr_1 n mrs)) as H2.
    { rewrite IH by lia. apply Z.div_pos; lia. }
    rewrite IH, IH by lia.
    rewrite !Z.div_div by lia. rewrite pow2_xO. reflexivity.
  - rewrite shr_1_m by lia. reflexivity.
Qed.

Lemma div_pow2_dg p k :
  0 <= k < dg p -> exists q, Zpos p / 2 ^ k = Zpos q /\ dg p - k <= dg q.
Proof.
  intros Hk. pose proof (dg_bounds p) as [Hl _].
  assert (2 ^ (dg p - 1 - k) <= Zpos p / 2 ^ k) as Hq.
  { apply Z.div_le_lower_bound; [apply Z.pow_pos_nonneg; lia|].
    rewrite <- Z.pow_add_r by lia. replace (k + (dg p - 1 - k)) with (dg p - 1) by lia.
    exact Hl. }
  assert (0 < 2 ^ (dg p - 1 - k)) by (apply Z.pow_pos_nonneg; lia).
  destruct (Zpos p / 2 ^ k) as [|q|q] eqn:Hdiv; try lia.
  exists q. split; [reflexivity|]. apply dg_lower in Hq. lia.
Qed.

Lemma shr_m_of_loc m l : shr_m (shr_record_of_loc m l) = m.
Proof. destruct l as [|[]]; reflexivity. Qed.

Lemma shr_fexp_pos p e l :
  -1074 < dg p + e ->
  exists q e', shr_m (fst (shr_fexp prec emax (Zpos p) e l)) = Zpos q /\
               snd (shr_fexp prec emax (Zpos p) e l) = e' /\
               dg p + e <= dg q + e'.
Proof.
  intros Hmag. unfold shr_fexp, shr, fexp, SpecFloat.emin.
  change (Zdigits2 (Zpos p)) with (dg p).
  change (3 - emax - prec) with (-1074). change prec with 53.
  destruct (Z.max (dg p + e - 53) (-1074) - e) as [|k|k] eqn:Hn.
  - exists p, e. cbn [fst snd]. rewrite shr_m_of_loc. repeat split; lia.
  - cbn [fst snd]. rewrite iter_shr_1_m by (rewrite shr_m_of_loc; lia).
    rewrite shr_m_of_loc.
    destruct (div_pow2_dg p (Zpos k)) as (q & Hq & Hdg); [lia|].
    exists q, (e + Zpos k). repeat split; [exact Hq|lia].
  - exists p, e. cbn [fst snd]. rewrite shr_m_of_loc. repeat split; lia.
Qed.

Lemma round_nearest_even_pos q l :
  exists q', round_nearest_even (Zpos q) l = Zpos q' /\ dg q <= dg q'.
Proof.
  assert (forall q', (q <= q')%positive -> dg q <= dg q') as Hm by (intros; now apply dg_mono).
  destruct l as [|[]]; simpl.
  - exists q. split; [reflexivity|apply Hm; lia].
  - destruct q; simpl; eexists; (split; [reflexivity|apply Hm; lia]).
  - exists q. split; [reflexivity|apply Hm; lia].
  - exists (q + 1)%positive. split; [reflexivity|apply Hm; lia].
Qed.

(** Rounding a positive mantissa above the underflow threshold never gives
    zero and never decreases the magnitude. *)
Lemma binary_round_aux_pos s p e l :
  -1074 < dg p + e ->
  (exists m' e', binary_round_aux prec emax s (Zpos p) e l = S754_finite s m' e' /\
                 dg p + e <= dg m' + e') \/
  binary_round_aux prec emax s (Zpos p) e l = S754_infinity s.
Proof.
  intros Hmag. unfold binary_round_aux.
  destruct (shr_fexp_pos p e l Hmag) as (q1 & e1 & Hq1 & He1 & Hd1).
  destruct (shr_fexp prec emax (Zpos p) e l) as [mrs' e'] eqn:H1.
  cbn [fst snd] in Hq1, He1. subst e'. rewrite Hq1.
  destruct (round_nearest_even_pos q1 (loc_of_shr_record mrs')) as (q2 & Hq2 & Hd2).
  rewrite Hq2.
  destruct (shr_fexp_pos q2 e1 loc_Exact ltac:(lia)) as (q3 & e3 & Hq3 & He3 & Hd3).
  destruct (shr_fexp prec emax (Zpos q2) e1 loc_Exact) as [mrs'' e''] eqn:H2.
  cbn [fst snd] in Hq3, He3. subst e''. rewrite Hq3.
  destruct (e3 <=? emax - prec); [left|right; reflexivity].
  exists q3, e3. split; [reflexivity|lia].
Qed.

Lemma iter_xO_val p d : Zpos (Pos.iter xO p d) = Zpos p * 2 ^ Zpos d.
Proof.
  induction d as [|d IH] using Pos.peano_ind.
  - simpl. lia.
  - rewrite Pos.iter_succ, Pos2Z.inj_xO, IH, Pos2Z.inj_succ, Z.pow_succ_r by lia. lia.
Qed.

Lemma shl_align_val p e e' :
  e' <= e ->
  Zpos (fst (shl_align p e e')) = Zpos p * 2 ^ (e - e') /\
  snd (shl_align p e e') = e'.
Proof.
  intros Hle. unfold shl_align.
  destruct (e' - e) as [|k|k] eqn:Hd; cbn [fst snd]; try lia.
  - replace (e - e') with 0 by lia. split; lia.
  - rewrite iter_xO_val. replace (e - e') with (Zpos k) by lia. split; lia.
Qed.

Lemma shl_align_dg p e e' :
  dg p + e <= dg (fst (shl_align p e e')) + snd (shl_align p e e').
Proof.
  unfold shl_align.
  destruct (e' - e) as [|k|k] eqn:Hd; cbn [fst snd]; try lia.
  pose proof (dg_bounds p) as [Hl _]. pose proof (dg_pos p).
  assert (2 ^ (dg p - 1 + Zpos k) <= Zpos (Pos.iter xO p k)) as H1.
  { rewrite iter_xO_val, Z.pow_add_r by lia.
    apply Z.mul_le_mono_nonneg_r; [apply Z.pow_nonneg; lia|exact Hl]. }
  apply dg_lower in H1. lia.
Qed.

Lemma sf_large_signed x s k : sf_large x s k -> sf_signed x s.
Proof. destruct x; simpl; tauto. Qed.

Lemma binary_round_aux_large s p e l :
  -1074 < dg p + e -> sf_large (binary_round_aux prec emax s (Zpos p) e l) s (dg p + e).
Proof.
  intros H. destruct (binary_round_aux_pos s p e l H) as [(m' & e' & -> & Hd)| ->];
    simpl; auto.
Qed.

Lemma binary_round_aux_sign s m e l s' :
  sf_signed (binary_round_aux prec emax s m e l) s' -> s' = s.
Proof.
  unfold binary_round_aux.
  destruct (shr_fexp prec emax m e l) as [mrs' e'].
  destruct (shr_fexp prec emax _ e' loc_Exact) as [mrs'' e''].
  destruct (shr_m mrs''); simpl; try tauto.
  destruct (_ <=? _); simpl; intros H; symmetry; exact H.
Qed.

Lemma binary_normalize_sign m e s :
  sf_signed (binary_normalize prec emax m e false) s ->
  (s = true /\ m < 0) \/ (s = false /\ 0 < m).
Proof.
  destruct m as [|p|p]; unfold binary_normalize, binary_round.
  - simpl. tauto.
  - destruct (shl_align p e _) as [mz ez]. intros ->%binary_round_aux_sign.
    right. split; [reflexivity|lia].
  - destruct (shl_align p e _) as [mz ez]. intros ->%binary_round_aux_sign.
    left. split; [reflexivity|lia].
Qed.

Lemma binary_normalize_large p :
  sf_large (binary_normalize prec emax (Zpos p) 0 false) false 1.
Proof.
  simpl. unfold binary_round.
  pose proof (shl_align_dg p 0 (fexp prec emax (Z.pos (digits2_pos p) + 0))) as Hd.
  destruct (shl_align p 0 _) as [mz ez]. cbn [fst snd] in Hd.
  pose proof (dg_pos p).
  pose proof (binary_round_aux_large false mz ez loc_Exact ltac:(lia)) as Hl.
  destruct (binary_round_aux _ _ _ _ _ _); simpl in *; try tauto.
  destruct Hl as [-> Hl]. split; [reflexivity|lia].
Qed.

Lemma SFmul_signed x y s :
  sf_large x s (-13) -> sf_large y false 1 -> sf_signed (SFmul prec emax x y) s.
Proof.
  destruct x as [| sx | | sx mx ex], y as [| sy | | sy my ey];
    unfold sf_large, SFmul; try tauto.
  - intros -> ->. now destruct s.
  - intros -> [-> _]. now destruct s.
  - intros [-> _] ->. now destruct s.
  - intros [-> Hx] [-> Hy]. pose proof (dg_mul mx my).
    apply sf_large_signed with (k := dg (mx * my) + (ex + ey)).
    assert (xorb s false = s) as Hs by (destruct s; reflexivity).
    rewrite Hs. apply binary_round_aux_large.
    change (PosDef.Pos.mul mx my) with (mx * my)%positive. lia.
Qed.

Lemma sf_signed_ltb x s :
  sf_signed x s ->
  SFltb (S754_zero false) x = negb s /\ SFltb x (S754_zero false) = s.
Proof. destruct x as [| [] | | [] m e]; simpl; intros; subst; try tauto; split; reflexivity. Qed.

(** Valid finite floats: the mantissa has at most 53 digits, exactly 53 unless
    the exponent is the least one. *)
Lemma bounded_dg m e :
  bounded prec emax m e = true ->
  dg m <= 53 /\ -1074 <= e /\ (dg m = 53 \/ e = -1074).
Proof.
  unfold bounded, canonical_mantissa, fexp, SpecFloat.emin.
  change (Zpos (digits2_pos m)) with (dg m).
  change (3 - emax - prec) with (-1074). change prec with 53.
  rewrite andb_true_iff, Z.eqb_eq. lia.
Qed.

(** On valid finite floats the comparison of exponents, then of mantissas, is
    the comparison of the values. *)
Lemma compare_aligned mx ex my ey :
  bounded prec emax mx ex = true -> bounded prec emax my ey = true ->
  match ex ?= ey with
  | Lt => Lt
  | Gt => Gt
  | Eq => PosDef.Pos.compare_cont Eq mx my
  end
  = (Zpos mx * 2 ^ (ex - Z.min ex ey) ?= Zpos my * 2 ^ (ey - Z.min ex ey)).
Proof.
  intros Hx Hy. apply bounded_dg in Hx, Hy.
  pose proof (dg_bounds mx) as [Hlx Hux]. pose proof (dg_bounds my) as [Hly Huy].
  assert (forall k, 0 < k -> 2 * 1 <= 2 ^ k) as Hpow.
  { intros k Hk. replace k with (1 + (k - 1)) by lia.
    rewrite Z.pow_add_r by lia. change (2 ^ 1) with 2.
    apply Z.mul_le_mono_nonneg_l; [lia|].
    assert (0 < 2 ^ (k - 1)) by (apply Z.pow_pos_nonneg; lia). lia. }
  assert (forall m, dg m <= 53 -> Zpos m < 2 ^ dg m -> Zpos m < 2 ^ 53) as Hlt.
  { intros m Hm H. assert (2 ^ dg m <= 2 ^ 53) by (apply Z.pow_le_mono_r; lia). lia. }
  destruct (ex ?= ey) eqn:Hc.
  - apply Z.compare_eq in Hc. subst ey. rewrite Z.min_id, Z.sub_diag.
    change (2 ^ 0) with 1. rewrite !Z.mul_1_r. reflexivity.
  - pose proof (proj1 (Z.compare_lt_iff _ _) Hc) as Hc'.
    rewrite Z.min_l by lia. rewrite Z.sub_diag.
    change (2 ^ 0) with 1. rewrite Z.mul_1_r. symmetry. apply Z.compare_lt_iff.
    assert (dg my = 53) as Hd by lia. rewrite Hd in Hly. change (53 - 1) with 52 in Hly.
    specialize (Hpow (ey - ex) ltac:(lia)). specialize (Hlt mx ltac:(lia) Hux).
    change (2 ^ 53) with (2 ^ 52 * 2) in Hlt.
    assert (2 ^ 52 * 2 <= Zpos my * 2 ^ (ey - ex)) by (apply Z.mul_le_mono_nonneg; lia).
    lia.
  - pose proof (proj1 (Z.compare_gt_iff _ _) Hc) as Hc'.
    rewrite Z.min_r by lia. rewrite Z.sub_diag.
    change (2 ^ 0) with 1. rewrite Z.mul_1_r. symmetry. apply Z.compare_gt_iff.
    assert (dg mx = 53) as Hd by lia. rewrite Hd in Hlx. change (53 - 1) with 52 in Hlx.
    specialize (Hpow (ex - ey) ltac:(lia)). specialize (Hlt my ltac:(lia) Huy).
    change (2 ^ 53) with (2 ^ 52 * 2) in Hlt.
    assert (2 ^ 52 * 2 <= Zpos mx * 2 ^ (ex - ey)) by (apply Z.mul_le_mono_nonneg; lia).
    lia.
Qed.

(** The sign of a difference that is neither zero nor NaN tells which of the
    two floats is the larger. *)
Lemma SFsub_signed x y s :
  valid_binary x = true -> valid_binary y = true ->
  sf_signed (SFsub prec emax x y) s ->
  SFcompare x y = Some (if s then Lt else Gt).
Proof.
  destruct x as [sx | sx | | sx mx ex], y as [sy | sy | | sy my ey];
    unfold SFsub, valid_binary, SpecFloat.valid_binary; intros Hx Hy Hs;
    try solve [ repeat match goal with b : bool |- _ => destruct b end;
                simpl in Hs; try tauto; try discriminate; reflexivity ].
  apply binary_normalize_sign in Hs.
  destruct (shl_align_val mx ex (Z.min ex ey) ltac:(lia)) as [HX _].
  destruct (shl_align_val my ey (Z.min ex ey) ltac:(lia)) as [HY _].
  rewrite HX, HY in Hs.
  pose proof (compare_aligned mx ex my ey Hx Hy) as Hc.
  assert (0 < Zpos mx * 2 ^ (ex - Z.min ex ey)) as HpX
    by (apply Z.mul_pos_pos; [lia|apply Z.pow_pos_nonneg; lia]).
  assert (0 < Zpos my * 2 ^ (ey - Z.min ex ey)) as HpY
    by (apply Z.mul_pos_pos; [lia|apply Z.pow_pos_nonneg; lia]).
  set (X := Zpos mx * 2 ^ (ex - Z.min ex ey)) in *.
  set (Y := Zpos my * 2 ^ (ey - Z.min ex ey)) in *.
  unfold SFcompare.
  destruct sx, sy; unfold cond_Zopp in Hs;
    destruct Hs as [[-> Hs]|[-> Hs]]; try lia; try reflexivity.
  - assert ((X ?= Y) = Gt) as Hxy by (apply Z.compare_gt_iff; lia).
    rewrite <- Hc in Hxy. destruct (ex ?= ey); try discriminate; try reflexivity.
    now rewrite Hxy.
  - assert ((X ?= Y) = Lt) as Hxy by (apply Z.compare_lt_iff; lia).
    rewrite <- Hc in Hxy. destruct (ex ?= ey); try discriminate; try reflexivity.
    now rewrite Hxy.
  - assert ((X ?= Y) = Lt) as Hxy by (apply Z.compare_lt_iff; lia).
    rewrite <- Hc in Hxy. destruct (ex ?= ey); try discriminate; try reflexivity.
    now rewrite Hxy.
  - assert ((X ?= Y) = Gt) as Hxy by (apply Z.compare_gt_iff; lia).
    rewrite <- Hc in Hxy. destruct (ex ?= ey); try discriminate; try reflexivity.
    now rewrite Hxy.
Qed.

Lemma SFcompare_antisym x y :
  SFcompare y x = match SFcompare x y with Some c => Some (CompOpp c) | None => None end.
Proof.
  destruct x as [sx | sx | | sx mx ex], y as [sy | sy | | sy my ey];
    try solve [ repeat match goal with b : bool |- _ => destruct b end; reflexivity ].
  unfold SFcompare.
  rewrite (Z.compare_antisym ex ey).
  change (PosDef.Pos.compare_cont Eq my mx) with (Pos.compare my mx).
  change (PosDef.Pos.compare_cont Eq mx my) with (Pos.compare mx my).
  rewrite (Pos.compare_antisym mx my).
  destruct sx, sy, (ex ?= ey), (mx ?= my)%positive; reflexivity.
Qed.

Lemma float_of_int_spec u :
  0 <= u < 2 ^ 63 ->
  Prim2SF (float_of_int u) = binary_normalize prec emax u 0 false.
Proof.
  intros Hu. unfold float_of_int.
  pose proof (FloatAxioms.of_uint63_spec (Uint63.of_Z u)) as H.
  rewrite Uint63.of_Z_spec, Z.mod_small in H by exact Hu.
  rewrite <- H. now rewrite FloatAxioms.SF2Prim_Prim2SF.
Qed.

Lemma rates_differ_large a b :
  rates_differ a b = true -> exists s, sf_large (Prim2SF (a - b)) s (-13).
Proof.
  unfold rates_differ. rewrite FloatAxioms.ltb_spec, FloatAxioms.abs_spec.
  change (Prim2SF 0.0001) with (S754_finite false 7378697629483821 (-66)).
  pose proof (FloatAxioms.Prim2SF_valid (a - b)) as Hv.
  destruct (Prim2SF (a - b)) as [s | s | | s m e]; unfold SFabs, SFltb, SFcompare;
    try discriminate.
  - intros _. exists s. reflexivity.
  - intros Hlt. exists s. split; [reflexivity|].
    unfold valid_binary, SpecFloat.valid_binary in Hv. apply bounded_dg in Hv.
    destruct (-66 ?= e) eqn:Hc; try discriminate.
    + apply Z.compare_eq in Hc. lia.
    + pose proof (proj1 (Z.compare_lt_iff _ _) Hc). lia.
Qed.

(** The sign of [(a - b) * u] for two rates that differ and a quantity [u]
    that fits a signed 64-bit integer. *)
Theorem revenue_impact_sign a b u :
  0 <= u < 2 ^ 63 ->
  rates_differ a b = true ->
  (0 <? (a - b) * float_of_int u)%float = (b <? a)%float && (0 <? u) /\
  ((a - b) * float_of_int u <? 0)%float = (a <? b)%float && (0 <? u).
Proof.
  intros Hu Hdiff. destruct (rates_differ_large a b Hdiff) as (s & Hlarge).
  pose proof (sf_large_signed _ _ _ Hlarge) as Hsigned.
  rewrite FloatAxioms.sub_spec in Hsigned.
  apply SFsub_signed in Hsigned; try apply FloatAxioms.Prim2SF_valid.
  assert ((a <? b)%float = s) as Hab.
  { rewrite FloatAxioms.ltb_spec. unfold SFltb. rewrite Hsigned. now destruct s. }
  assert ((b <? a)%float = negb s) as Hba.
  { rewrite FloatAxioms.ltb_spec. unfold SFltb. rewrite SFcompare_antisym, Hsigned. now destruct s. }
  rewrite Hab, Hba, !FloatAxioms.ltb_spec, FloatAxioms.mul_spec.
  change (Prim2SF 0) with (S754_zero false).
  destruct (Z.eq_dec u 0) as [->|Hne].
  - change (Prim2SF (float_of_int 0)) with (S754_zero false).
    rewrite !andb_false_r.
    destruct (Prim2SF (a - b)) as [s' | s' | | s' m e]; simpl in Hlarge; try tauto;
      split; reflexivity.
  - assert ((0 <? u) = true) as -> by (apply Z.ltb_lt; lia). rewrite !andb_true_r.
    apply sf_signed_ltb. apply SFmul_signed; [exact Hlarge|].
    rewrite float_of_int_spec by exact Hu.
    destruct u as [|p|p]; try lia. apply binary_normalize_large.
Qed.

(** ** C2: the charges and the impact of a rate mismatch *)

(** C2.  Every discrepancy of [compare_rates] carries
    [correct_charge = agreed_rate * usage_quantity] and
    [revenue_impact = (agreed_rate - billed_rate) * usage_quantity], computed
    in binary64.  For a quantity that fits the 64-bit integer column it is read
    from, the impact is positive exactly when the row is billed below the
    agreed rate on a positive quantity (the customer was undercharged), and
    negative exactly when it is billed above the agreed rate on a positive
    quantity (overcharged).  With an agreed rate of 0.05 and 100 units, a
    billed rate of 0.04 gives an impact of 1.0000000000000002, reported as
    1.00, and a billed rate of 0.06 gives -0.99999999999999956, reported as
    -1.00. *)
Theorem rate_mismatch_charges_and_impact :
  (∀ customer_id service_type contracts billing_df d,
     d ∈ discrepancies_of customer_id service_type contracts billing_df →
     let agreed_rate := Discrepancy.agreed_rate d in
     let billed_rate := Discrepancy.billed_rate d in
     let usage_quantity := Discrepancy.usage_quantity d in
     Discrepancy.correct_charge d = (agreed_rate * float_of_int usage_quantity)%float ∧
     Discrepancy.revenue_impact d
     = ((agreed_rate - billed_rate) * float_of_int usage_quantity)%float ∧
     (0 ≤ usage_quantity < 2 ^ 63 →
      (0 <? Discrepancy.revenue_impact d)%float
      = (billed_rate <? agreed_rate)%float && (0 <? usage_quantity) ∧
      (Discrepancy.revenue_impact d <? 0)%float
      = (agreed_rate <? billed_rate)%float && (0 <? usage_quantity))) ∧
  (discrepancies_of None None [contract_C100] [invoice_undercharged; invoice_overcharged]
   = [discrepancy contract_C100 invoice_undercharged;
      discrepancy contract_C100 invoice_overcharged] ∧
   Discrepancy.revenue_impact (discrepancy contract_C100 invoice_undercharged)
   = 1.0000000000000002%float ∧
   format_2f (Discrepancy.revenue_impact (discrepancy contract_C100 invoice_undercharged))
   = "1.00" ∧
   Discrepancy.revenue_impact (discrepancy contract_C100 invoice_overcharged)
   = (-0.99999999999999956)%float ∧
   format_2f (Discrepancy.revenue_impact (discrepancy contract_C100 invoice_overcharged))
   = "-1.00").
Proof.
  split.
  - intros customer_id service_type contracts billing_df d
      (row & c & _ & _ & _ & Hdiff & ->)%elem_of_discrepancies_of.
    simpl. split; [done|]. split; [done|]. intros Hu.
    by apply revenue_impact_sign.
  - repeat split; by vm_compute.
Qed.

Lemma undercharged_discrepancy_emitted :
  discrepancy contract_C100 invoice_undercharged
    ∈ discrepancies_of None None [contract_C100] [invoice_undercharged].
Proof.
  apply elem_of_discrepancies_of. exists invoice_undercharged, contract_C100.
  split; [apply list_elem_of_here|]. split; [split; intros ? [=]|].
  split; [by vm_compute|]. split; [by vm_compute|done].
Qed.

Lemma rate_mismatch_charges_and_impact_witness :
  (0 <? Discrepancy.revenue_impact (discrepancy contract_C100 invoice_undercharged))%float
  = true.
Proof.
  rewrite (proj1 (proj2 (proj2 (proj1 rate_mismatch_charges_and_impact
             None None [contract_C100] [invoice_undercharged] _
             undercharged_discrepancy_emitted)) ltac:(simpl; lia))).
  by vm_compute.
Defined.

(** The tolerance is compared with the difference as binary64 computes it,
    which for rates written in decimal is not the decimal difference: 0.05 and
    0.0499 are 0.00010000000000000286 apart, above the tolerance, 0.05 and
    0.0501 are 0.000099999999999995925 apart, below it. *)
Remark decimal_rates_near_tolerance :
  abs (0.05 - 0.0499)%float = 0.00010000000000000286%float ∧
  rates_differ 0.05 0.0499 = true ∧
  abs (0.05 - 0.0501)%float = 9.9999999999995925e-05%float ∧
  rates_differ 0.05 0.0501 = false.
Proof. repeat split; by vm_compute. Qed.
(** * Further properties of the detectors *)

(** ** compare_rates: filters, missing rates, order *)

Lemma check_row_key lookup row d :
  check_row lookup row = Some d → discrepancy_key d = billing_key row.
Proof.
  unfold check_row. destruct (lookup !! billing_key row) as [c|]; [|done].
  destruct (rates_differ _ _); [|done]. by intros [= <-].
Qed.

Lemma omap_filter_key {A B} (f : A → option B) (P : A → Prop) (Q : B → Prop)
    `{∀ x, Decision (P x)} `{∀ y, Decision (Q y)} (l : list A) :
  (∀ x y, f x = Some y → (P x ↔ Q y)) →
  omap f (filter P l) = filter Q (omap f l).
Proof.
  intros Hf. induction l as [|x l IH]; [done|].
  rewrite filter_cons. cbn [omap list_omap]. 
  destruct (f x) as [y|] eqn:Hx.
  - rewrite filter_cons.
    destruct (decide (P x)) as [HP|HP], (decide (Q y)) as [HQ|HQ].
    + cbn. by rewrite Hx, IH.
    + destruct HQ. by apply (Hf x y Hx).
    + destruct HP. by apply (Hf x y Hx).
    + exact IH.
  - destruct (decide (P x)); [|exact IH]. cbn. by rewrite Hx.
Qed.

Lemma filter_billing_passes customer_id service_type billing_df :
  filter_billing customer_id service_type billing_df
  = filter (λ row, passes customer_id service_type (billing_key row)) billing_df.
Proof.
  unfold filter_billing.
  destruct (truthy customer_id) as [c|] eqn:Hc, (truthy service_type) as [s|] eqn:Hs;
    rewrite ?list_filter_filter.
  - apply filter_ext_elem_of. intros row _. unfold passes. rewrite Hc, Hs. simpl.
    naive_solver.
  - apply filter_ext_elem_of. intros row _. unfold passes. rewrite Hc, Hs. simpl.
    naive_solver.
  - apply filter_ext_elem_of. intros row _. unfold passes. rewrite Hc, Hs. simpl.
    naive_solver.
  - symmetry. induction billing_df as [|row l IH]; [done|].
    rewrite filter_cons_True; [by rewrite IH|].
    unfold passes. rewrite Hc, Hs. naive_solver.
Qed.

(** X1.  The optional arguments of [compare_rates] select among the findings
    of the call without arguments: with [customer_id] and/or [service_type]
    given, the discrepancies are those of the unfiltered call whose customer
    and service are the given ones, in the same order, and the report is
    written from them.  An empty string filters nothing. *)
Theorem compare_rates_filters_select :
  ∀ customer_id service_type contracts billing_df usage,
    discrepancies_of customer_id service_type contracts billing_df
    = filter (λ d, passes customer_id service_type (discrepancy_key d))
             (discrepancies_of None None contracts billing_df) ∧
    compare_rates {| contracts_json := Some contracts;
                     billing_records_csv := Some billing_df;
                     usage_logs_json := usage |} customer_id service_type
    = rate_report (filter (λ d, passes customer_id service_type (discrepancy_key d))
                          (discrepancies_of None None contracts billing_df)) ∧
    discrepancies_of (Some "") service_type contracts billing_df
    = discrepancies_of None service_type contracts billing_df ∧
    discrepancies_of customer_id (Some "") contracts billing_df
    = discrepancies_of customer_id None contracts billing_df.
Proof.
  intros customer_id service_type contracts billing_df usage.
  assert (discrepancies_of customer_id service_type contracts billing_df
          = filter (λ d, passes customer_id service_type (discrepancy_key d))
                   (discrepancies_of None None contracts billing_df)) as Heq.
  { unfold discrepancies_of. rewrite !rate_discrepancies_omap.
    change (filter_contracts None None contracts) with contracts.
    change (filter_billing None None billing_df) with billing_df.
    rewrite filter_billing_passes.
    trans (omap (check_row (contract_lookup contracts))
             (filter (λ row, passes customer_id service_type (billing_key row))
                     billing_df)).
    - induction billing_df as [|row l IH]; [done|].
      rewrite filter_cons. destruct (decide _) as [Hp|Hp]; [|exact IH].
      cbn [omap list_omap]. rewrite IH. unfold check_row at 1 3.
      by rewrite (contract_lookup_filter _ _ _ _ Hp).
    - apply omap_filter_key.
      intros row d Hd. by rewrite (check_row_key _ _ _ Hd). }
  split; [exact Heq|]. split; [by rewrite compare_rates_report, Heq|]. done.
Qed.

Lemma rates_differ_not_nan agreed_rate billed_rate :
  rates_differ agreed_rate billed_rate = true →
  is_nan agreed_rate = false ∧ is_nan billed_rate = false.
Proof.
  unfold rates_differ. rewrite !is_nan_spec.
  rewrite FloatAxioms.ltb_spec, FloatAxioms.abs_spec, FloatAxioms.sub_spec.
  destruct (Prim2SF agreed_rate), (Prim2SF billed_rate); try done.
Qed.

(** X2.  A rate that is missing is never reported: every discrepancy of
    [compare_rates] has a billed rate and an agreed rate that are numbers, so a
    billing row whose [billed_rate] is NaN (an empty cell of the file) gets no
    discrepancy, whatever its contract says. *)
Theorem compare_rates_skips_missing_rates :
  ∀ customer_id service_type contracts billing_df,
    (∀ d, d ∈ discrepancies_of customer_id service_type contracts billing_df →
          is_nan (Discrepancy.agreed_rate d) = false ∧
          is_nan (Discrepancy.billed_rate d) = false) ∧
    discrepancies_of customer_id service_type contracts
      (filter (λ row, is_nan (Billing.billed_rate row) = false) billing_df)
    = discrepancies_of customer_id service_type contracts billing_df.
Proof.
  intros customer_id service_type contracts billing_df. split.
  - intros d (row & c & _ & _ & _ & Hdiff & ->)%elem_of_discrepancies_of.
    by apply rates_differ_not_nan.
  - unfold discrepancies_of. rewrite !rate_discrepancies_omap, filter_billing_filter.
    apply omap_filter_None. intros row Hnan. unfold check_row.
    destruct (_ !! _) as [c|]; [|done].
    destruct (rates_differ _ _) eqn:Hdiff; [|done].
    by apply rates_differ_not_nan in Hdiff as [_ Hb].
Qed.

Lemma compare_rates_skips_missing_rates_witness :
  discrepancy contract_C100 invoice_1
    ∈ discrepancies_of None None [contract_C100] [invoice_1] ∧
  is_nan (Discrepancy.billed_rate (discrepancy contract_C100 invoice_1)) = false.
Proof.
  assert (discrepancy contract_C100 invoice_1
            ∈ discrepancies_of None None [contract_C100] [invoice_1]) as Hd.
  { vm_compute. left. }
  split; [exact Hd|].
  exact (proj2 (proj1 (compare_rates_skips_missing_rates None None [contract_C100]
                         [invoice_1]) _ Hd)).
Defined.

Lemma omap_sublist_fmap {A B C} (f : A → option B) (g : B → C) (h : A → C)
    (l : list A) :
  (∀ x y, f x = Some y → g y = h x) →
  g <$> omap f l `sublist_of` h <$> l.
Proof.
  intros Hf. induction l as [|x l IH]; [done|].
  cbn [omap list_omap]. destruct (f x) as [y|] eqn:Hx; simpl.
  - rewrite (Hf x y Hx). by apply sublist_skip.
  - by apply sublist_cons.
Qed.

Lemma filter_billing_sublist customer_id service_type billing_df :
  filter_billing customer_id service_type billing_df `sublist_of` billing_df.
Proof. rewrite filter_billing_passes. apply sublist_filter. Qed.

(** X3.  [compare_rates] reports each billing row at most once and keeps the
    order of the billing file: the invoice ids of its discrepancies, in the
    order it lists them, are the invoice ids of the billing rows with some rows
    left out. *)
Theorem compare_rates_keeps_billing_order :
  ∀ customer_id service_type contracts billing_df,
    Discrepancy.invoice_id <$> discrepancies_of customer_id service_type contracts billing_df
      `sublist_of` Billing.invoice_id <$> billing_df ∧
    (length (discrepancies_of customer_id service_type contracts billing_df)
     ≤ length billing_df)%nat.
Proof.
  intros customer_id service_type contracts billing_df.
  assert (Discrepancy.invoice_id
            <$> discrepancies_of customer_id service_type contracts billing_df
          `sublist_of` Billing.invoice_id <$> billing_df) as Hsub.
  { unfold discrepancies_of. rewrite rate_discrepancies_omap.
    etrans; [apply (omap_sublist_fmap _ _ Billing.invoice_id)|].
    - intros row d. unfold check_row. destruct (_ !! _) as [c|]; [|done].
      destruct (rates_differ _ _); [|done]. by intros [= <-].
    - apply fmap_sublist, filter_billing_sublist. }
  split; [exact Hsub|].
  apply sublist_length in Hsub. by rewrite !length_fmap in Hsub.
Qed.

(** ** Reports without findings *)

Lemma found_not_no (s t : string) : "Found " +:+ s ≠ String "N" t.
Proof. by intros [=]. Qed.

(** X4.  When its files are there, a detector answers that it found nothing
    exactly when it has no finding: [compare_rates] returns "No rate
    discrepancies found." iff there is no discrepancy, and likewise
    [detect_missing_charges], [detect_duplicate_entries] and
    [detect_usage_mismatches] with their own sentences.  In particular empty
    billing records give this answer from every detector but
    [detect_missing_charges], for which every contract is then missing. *)
Theorem detectors_answer_nothing_found_iff_no_finding :
  ∀ (h : set_order) contracts billing_df usage_logs customer_id service_type,
    let fs := {| contracts_json := Some contracts;
                 billing_records_csv := Some billing_df;
                 usage_logs_json := Some usage_logs |} in
    (compare_rates fs customer_id service_type = "No rate discrepancies found."
     ↔ discrepancies_of customer_id service_type contracts billing_df = []) ∧
    (detect_missing_charges fs = "No missing charges found."
     ↔ missing_charges contracts billing_df = []) ∧
    (detect_duplicate_entries fs = "No duplicate entries found."
     ↔ duplicates billing_df = []) ∧
    (detect_usage_mismatches h fs = "No significant usage mismatches found."
     ↔ mismatches h usage_logs billing_df = []) ∧
    discrepancies_of customer_id service_type contracts [] = [] ∧
    missing_charges contracts [] = contracts ∧
    duplicates [] = [] ∧
    mismatches h usage_logs [] = [].
Proof.
  intros h contracts billing_df usage_logs customer_id service_type fs.
  split; [|split; [|split; [|split; [|split; [|split; [|split]]]]]].
  - unfold fs. rewrite compare_rates_report.
    destruct (discrepancies_of _ _ _ _) as [|d l] eqn:Hl; [done|].
    rewrite rate_report_text by done. split; [|done].
    rewrite !string_app_assoc. intros H. by apply found_not_no in H.
  - unfold fs, detect_missing_charges. simpl.
    destruct (missing_charges _ _) as [|d l] eqn:Hl; [done|].
    rewrite missing_charges_report_text by done. split; [|done].
    rewrite !string_app_assoc. intros H. by apply found_not_no in H.
  - unfold fs, detect_duplicate_entries. simpl.
    destruct (duplicates _) as [|d l] eqn:Hl; [done|].
    rewrite duplicates_report_text by done. split; [|done].
    rewrite !string_app_assoc. intros H. by apply found_not_no in H.
  - unfold fs, detect_usage_mismatches. simpl.
    destruct (mismatches _ _ _) as [|d l] eqn:Hl; [done|].
    rewrite mismatches_report_text by done. split; [|done].
    rewrite !string_app_assoc. intros H. by apply found_not_no in H.
  - unfold discrepancies_of. rewrite rate_discrepancies_omap.
    by rewrite filter_billing_passes.
  - rewrite missing_charges_filter. induction contracts as [|c l IH]; [done|].
    rewrite filter_cons_True; [by rewrite IH|]. set_solver.
  - done.
  - destruct (mismatches h usage_logs []) as [|m l] eqn:Hl; [done|].
    assert (m ∈ mismatches h usage_logs []) as Hm by (rewrite Hl; left).
    apply elem_of_mismatches in Hm as (k & _ & Hb & _). by vm_compute in Hb.
Qed.

(** ** detect_missing_charges: order, new billing rows, and the other detector *)

Lemma billed_services_app billing_df more :
  billed_services (billing_df ++ more)
  = billed_services billing_df ∪ billed_services more.
Proof.
  apply set_eq. intros k. rewrite elem_of_union, !elem_of_billed_services.
  setoid_rewrite elem_of_app. naive_solver.
Qed.

(** X5.  The missing charges are contracts of the input, each as often as it
    stands there and in the order of the contracts file.  Billing rows that
    are added take away the missing charges whose key they bill and nothing
    else: the missing charges against [billing_df ++ more] are those against
    [billing_df] whose key no row of [more] has. *)
Theorem missing_charges_shrink_with_billing :
  ∀ contracts billing_df more,
    missing_charges contracts billing_df `sublist_of` contracts ∧
    missing_charges contracts (billing_df ++ more)
    = filter (λ c, contract_key c ∉ billed_services more)
             (missing_charges contracts billing_df) ∧
    missing_charges contracts (billing_df ++ more)
      `sublist_of` missing_charges contracts billing_df.
Proof.
  intros contracts billing_df more.
  assert (missing_charges contracts (billing_df ++ more)
          = filter (λ c, contract_key c ∉ billed_services more)
                   (missing_charges contracts billing_df)) as Heq.
  { rewrite !missing_charges_filter, list_filter_filter, billed_services_app.
    apply list_filter_iff. intros c. set_solver. }
  split; [rewrite missing_charges_filter; apply sublist_filter|].
  split; [exact Heq|]. rewrite Heq. apply sublist_filter.
Qed.

(** X6.  No key is both a missing charge and a rate discrepancy: a contract
    that [detect_missing_charges] reports has a key that no discrepancy of
    [compare_rates] has, whatever the filters. *)
Theorem missing_charge_excludes_rate_discrepancy :
  ∀ customer_id service_type contracts billing_df c d,
    c ∈ missing_charges contracts billing_df →
    d ∈ discrepancies_of customer_id service_type contracts billing_df →
    contract_key c ≠ discrepancy_key d.
Proof.
  intros customer_id service_type contracts billing_df c d Hc Hd Hkey.
  rewrite missing_charges_filter in Hc. apply list_elem_of_filter in Hc as [Hc _].
  apply elem_of_discrepancies_of in Hd as (row & c' & Hrow & _ & _ & _ & ->).
  apply Hc, elem_of_billed_services. exists row. split; [done|].
  by rewrite Hkey.
Qed.

Lemma missing_charge_excludes_rate_discrepancy_witness :
  contract_C200 ∈ missing_charges [contract_C100; contract_C200] [invoice_1] ∧
  discrepancy contract_C100 invoice_1
    ∈ discrepancies_of None None [contract_C100; contract_C200] [invoice_1] ∧
  contract_key contract_C200 ≠ discrepancy_key (discrepancy contract_C100 invoice_1).
Proof.
  assert (contract_C200 ∈ missing_charges [contract_C100; contract_C200] [invoice_1])
    as Hc.
  { vm_compute. left. }
  assert (discrepancy contract_C100 invoice_1
            ∈ discrepancies_of None None [contract_C100; contract_C200] [invoice_1])
    as Hd.
  { vm_compute. left. }
  split; [exact Hc|]. split; [exact Hd|].
  exact (missing_charge_excludes_rate_discrepancy None None
           [contract_C100; contract_C200] [invoice_1] _ _ Hc Hd).
Defined.

(** ** detect_duplicate_entries: the count, and a second pass *)

Lemma rows_with_key_singleton k (row : Billing.t) :
  (length (rows_with_key k [row]) ≤ 1)%nat.
Proof.
  unfold rows_with_key. rewrite filter_cons, filter_nil.
  destruct (decide _); simpl; lia.
Qed.

Lemma is_duplicate_duplicates df row :
  row ∈ duplicates df → is_duplicate (duplicates df) row.
Proof.
  intros [_ Hdup]%elem_of_duplicates.
  apply is_duplicate_rows_with_key. rewrite (rows_with_key_duplicates _ _ Hdup).
  by apply is_duplicate_rows_with_key.
Qed.

Lemma filter_all {A} (P : A → Prop) `{∀ x, Decision (P x)} (l : list A) :
  (∀ x, x ∈ l → P x) → filter P l = l.
Proof.
  intros HP. induction l as [|x l IH]; [done|].
  rewrite filter_cons_True by (apply HP; left).
  rewrite IH; [done|]. intros y Hy. apply HP. by right.
Qed.

Lemma insert_by_head {A} (le : A → A → bool) x l :
  Forall (λ y, le x y = true) l → insert_by le x l = x :: l.
Proof. intros [|y l' Hy _]; [done|]. simpl. by rewrite Hy. Qed.

Lemma stable_sort_sorted_id {A} (le : A → A → bool) l :
  StronglySorted (λ a b, le a b = true) l → stable_sort le l = l.
Proof.
  induction 1 as [|x l _ IH Hx]; [done|].
  unfold stable_sort in *. simpl. rewrite IH. by apply insert_by_head.
Qed.

(** X7.  [detect_duplicate_entries] never counts one duplicate entry: the rows
    it counts are none or at least two.  Selecting the duplicates among the
    rows it has selected changes nothing: they are all duplicates of each
    other still, and already sorted. *)
Theorem duplicates_never_single_and_stable :
  ∀ billing_df,
    length (duplicates billing_df) ≠ 1%nat ∧
    (duplicates billing_df = [] ↔ ∀ row, row ∈ billing_df → ¬ is_duplicate billing_df row) ∧
    duplicates (duplicates billing_df) = duplicates billing_df.
Proof.
  intros billing_df. split; [|split].
  - intros Hlen. destruct (duplicates billing_df) as [|row [|??]] eqn:Hd; try done.
    assert (row ∈ duplicates billing_df) as Hrow by (rewrite Hd; left).
    apply is_duplicate_duplicates in Hrow.
    apply (proj1 (is_duplicate_rows_with_key _ _)) in Hrow.
    rewrite Hd in Hrow. pose proof (rows_with_key_singleton (duplicate_columns row) row).
    lia.
  - split.
    + intros Hnil row Hrow Hdup.
      assert (row ∈ duplicates billing_df) as Hin by by apply elem_of_duplicates.
      rewrite Hnil in Hin. by apply not_elem_of_nil in Hin.
    + intros Hno. destruct (duplicates billing_df) as [|row l] eqn:Hd; [done|].
      assert (row ∈ duplicates billing_df) as Hrow by (rewrite Hd; left).
      apply elem_of_duplicates in Hrow as [Hrow Hdup]. by destruct (Hno row Hrow).
  - unfold duplicates at 1. rewrite select_duplicated.
    rewrite filter_all by apply is_duplicate_duplicates.
    apply stable_sort_sorted_id. unfold duplicates. apply sort_values_sorted.
Qed.

(** ** detect_usage_mismatches: one finding for a key, whatever the order *)

Lemma check_key_key usage billing k m :
  check_key usage billing k = Some m → mismatch_key m = k.
Proof.
  unfold check_key. destruct (_ && _); [|done].
  destruct (_ <? _)%float; [|done]. intros [= <-]. by destruct k.
Qed.

Lemma NoDup_set_iter (h : set_order) (s : gset key) : NoDup (set_iter h s).
Proof. rewrite set_iter_perm. apply NoDup_elements. Qed.

Lemma mismatch_keys_NoDup (h : set_order) usage_logs billing_df :
  NoDup (mismatch_key <$> mismatches h usage_logs billing_df).
Proof.
  rewrite mismatches_omap.
  eapply sublist_NoDup; [apply (NoDup_set_iter h)|].
  rewrite <- (list_fmap_id (set_iter h _)) at 2.
  apply omap_sublist_fmap. intros k m. apply check_key_key.
Qed.

Lemma foldr_add_Permutation (l l' : list Z) :
  l ≡ₚ l' → foldr Z.add 0 l = foldr Z.add 0 l'.
Proof. induction 1; simpl; lia. Qed.

Lemma recorded_total_Permutation usage_logs usage_logs' k :
  usage_logs ≡ₚ usage_logs' → recorded_total usage_logs k = recorded_total usage_logs' k.
Proof.
  intros Hp. unfold recorded_total. apply foldr_add_Permutation. by rewrite Hp.
Qed.

Lemma billed_total_Permutation billing_df billing_df' k :
  billing_df ≡ₚ billing_df' → billed_total billing_df k = billed_total billing_df' k.
Proof.
  intros Hp. unfold billed_total. apply foldr_add_Permutation. by rewrite Hp.
Qed.

(** X8.  [detect_usage_mismatches] reports a key at most once, and what it
    finds does not depend on the order of the usage logs or of the billing
    rows: on the same records in another order, any two runs find the same
    mismatches, in an order of listing that may differ. *)
Theorem usage_mismatches_once_per_key_any_record_order :
  ∀ (h1 h2 : set_order) usage_logs usage_logs' billing_df billing_df',
    NoDup (mismatch_key <$> mismatches h1 usage_logs billing_df) ∧
    (usage_logs ≡ₚ usage_logs' → billing_df ≡ₚ billing_df' →
     mismatches h1 usage_logs billing_df ≡ₚ mismatches h2 usage_logs' billing_df').
Proof.
  intros h1 h2 usage_logs usage_logs' billing_df billing_df'.
  split; [apply mismatch_keys_NoDup|]. intros Hu Hb.
  apply NoDup_Permutation.
  - eapply NoDup_fmap_1, mismatch_keys_NoDup.
  - eapply NoDup_fmap_1, mismatch_keys_NoDup.
  - intros m. rewrite !elem_of_mismatches.
    split; intros (k & H); exists k.
    + by rewrite <- (recorded_total_Permutation _ _ k Hu),
                 <- (billed_total_Permutation _ _ k Hb).
    + by rewrite (recorded_total_Permutation _ _ k Hu),
                 (billed_total_Permutation _ _ k Hb).
Qed.

Lemma usage_mismatches_once_per_key_any_record_order_witness :
  mismatches order_elements [usage_log_1; usage_log_2]
             [invoice_usage_89; invoice_bandwidth_50]
  ≡ₚ mismatches order_reversed [usage_log_2; usage_log_1]
                [invoice_bandwidth_50; invoice_usage_89].
Proof.
  apply (proj2 (usage_mismatches_once_per_key_any_record_order
                  order_elements order_reversed
                  [usage_log_1; usage_log_2] [usage_log_2; usage_log_1]
                  [invoice_usage_89; invoice_bandwidth_50]
                  [invoice_bandwidth_50; invoice_usage_89])).
  - apply perm_swap.
  - apply perm_swap.
Defined.

(** X9.  The threshold of [detect_usage_mismatches] does not tell billing too
    little from billing too much: [difference_pct] is the same when the two
    totals are exchanged, so a key is flagged on exchanged aggregates exactly
    when it is flagged on the aggregates themselves, with the opposite
    [difference]. *)
Theorem usage_mismatch_threshold_symmetric :
  ∀ (usage billing : gmap key Z) (k : key) (u b : Z),
    difference_pct u b = difference_pct b u ∧
    Mismatch.difference (mismatch k u b) = - Mismatch.difference (mismatch k b u) ∧
    (is_Some (check_key usage billing k) ↔ is_Some (check_key billing usage k)).
Proof.
  intros usage billing k u b.
  assert (∀ x y, difference_pct x y = difference_pct y x) as Hsym.
  { intros x y. unfold difference_pct. f_equal. f_equal; lia. }
  split; [apply Hsym|]. split; [simpl; lia|].
  unfold check_key. rewrite (Hsym (default 0 (billing !! k))).
  rewrite (andb_comm (bool_decide (0 < default 0 (billing !! k)))).
  destruct (_ && _); [|done]. destruct (_ <? _)%float; [|done].
  split; intros _; eauto.
Qed.

(** ** query_billing_data *)

Lemma string_app_cons c (s t : string) : String c s +:+ t = String c (s +:+ t).
Proof. reflexivity. Qed.

Lemma split_cons_space c s : is_space c = true → split (String c s) = split s.
Proof. intros Hc. simpl. by rewrite Hc. Qed.

(** A word followed by white space is the first word of the text. *)
Lemma split_word_space (word : string) (c : ascii) (rest : string) :
  word ≠ "" →
  Forall (λ c, is_space c = false) (list_ascii_of_string word) →
  is_space c = true →
  split (word +:+ String c rest) = word :: split rest.
Proof.
  intros Hne Hword Hc. induction word as [|a word IH]; [done|].
  apply Forall_cons in Hword as [Ha Hword].
  rewrite string_app_cons. destruct word as [|b word].
  - change ("" +:+ String c rest) with (String c rest).
    simpl. by rewrite Ha, Hc.
  - specialize (IH ltac:(done) Hword).
    rewrite string_app_cons in IH |- *.
    apply Forall_cons in Hword as [Hb _].
    change (split (String a (String b (word +:+ String c rest))))
      with (if is_space a then split (String b (word +:+ String c rest))
            else if is_space b
                 then String a "" :: split (String b (word +:+ String c rest))
                 else match split (String b (word +:+ String c rest)) with
                      | w :: ws => String a w :: ws
                      | [] => [String a ""]
                      end).
    by rewrite Ha, Hb, IH.
Qed.

Lemma lower_app (s t : string) : lower (s +:+ t) = lower s +:+ lower t.
Proof.
  induction s as [|c s IH]; [done|].
  rewrite string_app_cons. simpl. by rewrite IH.
Qed.

(** X10.  [query_billing_data] takes for the customer id the first word of the
    query that starts with a capital C and has five characters or more.  So a
    query that mentions "customer" in any letter case and whose first word is
    such a word is answered for that word: with the billing rows of the
    customer of that name or, when there are none, with "No billing records
    found for" and the word; the rest of the query, a service type or another
    customer id, is not looked at.  The word "Customer" itself is such a word:
    a query that starts with it is answered for a customer named "Customer". *)
Theorem query_billing_data_takes_first_capital_word :
  ∀ (to_string : list Billing.t → string) fs billing_df,
    billing_records_csv fs = Some billing_df →
    (∀ word rest,
       starts_with "C" word = true →
       (5 ≤ String.length word)%nat →
       Forall (λ c, is_space c = false) (list_ascii_of_string word) →
       contains "customer" (lower (word +:+ " " +:+ rest)) = true →
       query_billing_data to_string fs (word +:+ " " +:+ rest)
       = filtered_answer to_string
           (filter (λ row, Billing.customer_id row = word) billing_df) word) ∧
    (∀ rest,
       query_billing_data to_string fs ("Customer " +:+ rest)
       = filtered_answer to_string
           (filter (λ row, Billing.customer_id row = "Customer") billing_df) "Customer").
Proof.
  intros to_string fs billing_df Hfile.
  assert (∀ word rest,
       starts_with "C" word = true →
       (5 ≤ String.length word)%nat →
       Forall (λ c, is_space c = false) (list_ascii_of_string word) →
       contains "customer" (lower (word +:+ " " +:+ rest)) = true →
       query_billing_data to_string fs (word +:+ " " +:+ rest)
       = filtered_answer to_string
           (filter (λ row, Billing.customer_id row = word) billing_df) word) as Hfirst.
  { intros word rest HC Hlen Hword Hcust.
    unfold query_billing_data. rewrite Hfile, Hcust.
    unfold find_customer_id.
    change (word +:+ " " +:+ rest) with (word +:+ String " " rest).
    rewrite split_word_space; [|by destruct word|done|done].
    cbn [List.find]. rewrite HC, bool_decide_true by done. done. }
  split; [exact Hfirst|]. intros rest.
  apply (Hfirst "Customer" rest); [done|simpl; lia|by repeat constructor|].
  by vm_compute.
Qed.

Lemma query_billing_data_takes_first_capital_word_witness :
  query_billing_data invoice_ids_text scenario_files
                     "C1001 customer bills"
  = "No billing records found for C1001".
Proof.
  apply (proj1 (query_billing_data_takes_first_capital_word
                  invoice_ids_text
                  scenario_files [invoice_1] eq_refl) "C1001" "customer bills").
  - reflexivity.
  - simpl. lia.
  - repeat constructor.
  - vm_compute. reflexivity.
Defined.

Lemma lower_char_idemp c : lower_char (lower_char c) = lower_char c.
Proof. by destruct c as [[] [] [] [] [] [] [] []]. Qed.

Lemma lower_idemp s : lower (lower s) = lower s.
Proof. induction s as [|c s IH]; [done|]. simpl. by rewrite lower_char_idemp, IH. Qed.

Lemma lower_char_not_C c : lower_char c ≠ "C"%char.
Proof. by destruct c as [[] [] [] [] [] [] [] []]. Qed.

Lemma contains_cons s c t : contains s t = true → contains s (String c t) = true.
Proof. intros H. simpl. rewrite H. by destruct (starts_with _ _). Qed.

Lemma contains_C_cons c t :
  contains "C" (String c t) = bool_decide ("C"%char = c) || contains "C" t.
Proof. simpl. by rewrite andb_true_r. Qed.

Lemma contains_C_lower s : contains "C" (lower s) = false.
Proof.
  induction s as [|c s IH]; [done|].
  change (lower (String c s)) with (String (lower_char c) (lower s)).
  rewrite contains_C_cons, IH, bool_decide_false; [done|].
  intros H. by apply (lower_char_not_C c).
Qed.

Lemma split_starts_with_C s word :
  word ∈ split s → starts_with "C" word = true → contains "C" s = true.
Proof.
  revert word. induction s as [|c s IH]; intros word Hin HC.
  { by apply not_elem_of_nil in Hin. }
  rewrite contains_C_cons.
  assert (∀ w, word = String c w → bool_decide ("C"%char = c) = true) as Hhead.
  { intros w ->. simpl in HC. by apply andb_true_iff in HC as [? _]. }
  assert (word ∈ split s → bool_decide ("C"%char = c) || contains "C" s = true) as Htail.
  { intros Hw. rewrite (IH word Hw HC). apply orb_true_r. }
  simpl in Hin. destruct (is_space c); [by apply Htail|].
  destruct s as [|c' s'].
  - apply list_elem_of_singleton in Hin. by rewrite (Hhead "" Hin).
  - destruct (is_space c').
    + apply elem_of_cons in Hin as [Hin|Hin]; [by rewrite (Hhead "" Hin)|by apply Htail].
    + destruct (split (String c' s')) as [|w ws].
      * apply list_elem_of_singleton in Hin. by rewrite (Hhead "" Hin).
      * apply elem_of_cons in Hin as [Hin|Hin]; [by rewrite (Hhead w Hin)|].
        apply Htail. by right.
Qed.

Lemma find_none_intro {A} (f : A → bool) (l : list A) :
  (∀ x, x ∈ l → f x = false) → List.find f l = None.
Proof.
  intros Hf. induction l as [|x l IH]; [done|]. simpl.
  rewrite (Hf x) by left. apply IH. intros y Hy. apply Hf. by right.
Qed.

Lemma find_customer_id_without_C query :
  contains "C" query = false → find_customer_id query = None.
Proof.
  intros HC. apply find_none_intro. intros word Hword.
  destruct (starts_with "C" word) eqn:Hs; [|done].
  by rewrite (split_starts_with_C _ _ Hword Hs) in HC.
Qed.

(** X11.  A customer id is told by its capital C only.  A query without a
    capital C selects no customer, and is answered as the same query in lower
    case is: with the rows of the first known service type it names, if it has
    the word "service", and with the whole table otherwise. *)
Theorem query_billing_data_needs_capital_C :
  ∀ (to_string : list Billing.t → string) fs query,
    contains "C" query = false →
    find_customer_id query = None ∧
    query_billing_data to_string fs query
    = query_billing_data to_string fs (lower query) ∧
    (∀ billing_df,
       billing_records_csv fs = Some billing_df →
       query_billing_data to_string fs query
       = if contains "service" (lower query)
         then match find_service_type query with
              | Some service_type =>
                  filtered_answer to_string
                    (filter (λ row, Billing.service_type row = service_type) billing_df)
                    service_type
              | None => to_string billing_df
              end
         else to_string billing_df).
Proof.
  intros to_string fs query HC.
  pose proof (find_customer_id_without_C query HC) as Hq.
  pose proof (find_customer_id_without_C (lower query) (contains_C_lower query)) as Hl.
  split; [exact Hq|]. split.
  - unfold query_billing_data, find_service_type.
    rewrite Hq, Hl, !lower_idemp.
    destruct (billing_records_csv fs); [|done].
    by destruct (contains "customer" (lower query)).
  - intros billing_df Hfile. unfold query_billing_data. rewrite Hfile, Hq.
    destruct (contains "customer" (lower query));
      destruct (contains "service" (lower query)); try done;
      by destruct (find_service_type query).
Qed.

Lemma query_billing_data_needs_capital_C_witness :
  query_billing_data invoice_ids_text scenario_files
                     "customer c100 service cloud_storage"
  = "1".
Proof.
  rewrite (proj2 (proj2 (query_billing_data_needs_capital_C
             invoice_ids_text scenario_files
             "customer c100 service cloud_storage" eq_refl)) [invoice_1] eq_refl).
  vm_compute. reflexivity.
Defined.

(** ** The tolerance of compare_rates is symmetric *)

Lemma binary_round_aux_abs s m e l :
  SFabs (binary_round_aux prec emax s m e l)
  = SFabs (binary_round_aux prec emax (negb s) m e l).
Proof.
  unfold binary_round_aux.
  destruct (shr_fexp prec emax m e l) as [mrs' e'].
  destruct (shr_fexp prec emax _ e' loc_Exact) as [mrs'' e''].
  destruct (shr_m mrs''); [done| |done].
  by destruct (_ <=? _).
Qed.

Lemma binary_normalize_abs m e :
  SFabs (binary_normalize prec emax (- m) e false)
  = SFabs (binary_normalize prec emax m e false).
Proof.
  destruct m as [|p|p]; [done| |]; simpl; unfold binary_round;
    destruct (shl_align _ _ _) as [mz ez];
    by rewrite (binary_round_aux_abs true).
Qed.

Lemma SFsub_abs_sym x y :
  SFabs (SFsub prec emax x y) = SFabs (SFsub prec emax y x).
Proof.
  destruct x as [sx|sx| |sx mx ex], y as [sy|sy| |sy my ey];
    try (by destruct sx); try (by destruct sy); try (by destruct sx, sy); try done.
  unfold SFsub. rewrite (Z.min_comm ey ex).
  rewrite <- binary_normalize_abs. f_equal. f_equal. lia.
Qed.

(** X12.  The tolerance test of [compare_rates] does not tell the two rates
    apart: [abs(agreed_rate - billed_rate)] is the same binary64 number when
    the rates are exchanged, so a rate billed too low and the same rates with
    the billing too high are flagged alike. *)
Theorem rates_differ_symmetric :
  ∀ agreed_rate billed_rate,
    abs (agreed_rate - billed_rate)%float = abs (billed_rate - agreed_rate)%float ∧
    rates_differ agreed_rate billed_rate = rates_differ billed_rate agreed_rate.
Proof.
  intros a b.
  assert (abs (a - b)%float = abs (b - a)%float) as Habs.
  { apply Prim2SF_inj.
    rewrite !FloatAxioms.abs_spec, !FloatAxioms.sub_spec. apply SFsub_abs_sym. }
  split; [exact Habs|]. unfold rates_differ. by rewrite Habs.
Qed.

(** ** The groups of detect_duplicate_entries share out the rows it counts *)

Lemma concat_groups_cons (firsts l : list Billing.t) (row : Billing.t) :
  concat ((λ first, filter (λ other,
             same_key (duplicate_columns other) (duplicate_columns first) = true)
             (row :: l)) <$> firsts)
  ≡ₚ ((λ _, row) <$> rows_with_key (duplicate_columns row) firsts) ++
     concat ((λ first, filter (λ other,
             same_key (duplicate_columns other) (duplicate_columns first) = true) l)
             <$> firsts).
Proof.
  induction firsts as [|first firsts IH]; [done|].
  cbn [fmap list_fmap concat]. rewrite IH. clear IH.
  unfold rows_with_key. rewrite !filter_cons.
  destruct (decide (same_key (duplicate_columns row) (duplicate_columns first) = true))
    as [Hs|Hs],
    (decide (same_key (duplicate_columns first) (duplicate_columns row) = true))
    as [Hs'|Hs'].
  - cbn [fmap list_fmap]. simpl. f_equiv.
    rewrite !app_assoc. f_equiv. apply Permutation_app_comm.
  - by rewrite same_key_sym in Hs'.
  - by rewrite same_key_sym in Hs'.
  - rewrite !app_assoc. f_equiv. apply Permutation_app_comm.
Qed.

Lemma concat_groups_Permutation (firsts l : list Billing.t) :
  (∀ k, (length (rows_with_key k firsts) ≤ 1)%nat) →
  (∀ row, row ∈ l →
     ∃ first, first ∈ firsts ∧
       same_key (duplicate_columns first) (duplicate_columns row) = true) →
  concat ((λ first, filter (λ other,
             same_key (duplicate_columns other) (duplicate_columns first) = true) l)
          <$> firsts)
  ≡ₚ l.
Proof.
  intros Honce Hcover. induction l as [|row l IH].
  - clear. induction firsts as [|first firsts IH]; [done|]. exact IH.
  - rewrite concat_groups_cons, IH by (intros r Hr; apply Hcover; by right).
    destruct (Hcover row ltac:(left)) as (first & Hfirst & Hsame).
    assert (first ∈ rows_with_key (duplicate_columns row) firsts) as Hin.
    { by apply list_elem_of_filter. }
    specialize (Honce (duplicate_columns row)).
    destruct (rows_with_key (duplicate_columns row) firsts) as [|f [|f' fs]];
      [by apply not_elem_of_nil in Hin|done|simpl in Honce; lia].
Qed.

(** X13.  On a billing frame without a missing value in any column of the
    business key (no cell of [customer_id], [service_type], [usage_quantity] or
    [date] is empty in the rows of the model, and no rate or charge is NaN),
    the groups of [detect_duplicate_entries] share out the rows it counts:
    every counted row is in one group, and the number of duplicate entries in
    the first line of the report is the sum of the sizes of the groups. *)
Theorem duplicate_groups_share_out_duplicates :
  ∀ billing_df,
    (∀ row, row ∈ billing_df → key_has_nan (duplicate_columns row) = false) →
    concat (snd <$> duplicate_groups billing_df) ≡ₚ duplicates billing_df ∧
    length (duplicates billing_df)
    = foldr Nat.add 0%nat (length ∘ snd <$> duplicate_groups billing_df).
Proof.
  intros billing_df Hnan.
  assert (concat (snd <$> duplicate_groups billing_df) ≡ₚ duplicates billing_df)
    as Hperm.
  { unfold duplicate_groups, groupby. rewrite <- list_fmap_compose.
    rewrite filter_all by (intros row [Hrow _]%elem_of_duplicates; by apply Hnan).
    apply concat_groups_Permutation.
    - intros k. rewrite sort_values_rows_with_key. apply first_of_each_key_once.
    - intros row Hrow.
      destruct (first_of_each_key_cover _ _ Hrow) as (first & Hfirst & Hsame).
      exists first. split; [|done]. by rewrite sort_values_Permutation. }
  split; [exact Hperm|].
  rewrite <- (Permutation_length Hperm), length_concat, list_fmap_compose.
  generalize (snd <$> duplicate_groups billing_df). intros gs.
  induction gs as [|g gs IH]; [done|]. simpl. by rewrite IH.
Qed.

Lemma duplicate_groups_share_out_duplicates_witness :
  length (duplicates [invoice_A1; invoice_A2])
  = foldr Nat.add 0%nat (length ∘ snd <$> duplicate_groups [invoice_A1; invoice_A2]).
Proof.
  apply (duplicate_groups_share_out_duplicates [invoice_A1; invoice_A2]).
  intros row Hrow.
  apply elem_of_cons in Hrow as [->|Hrow]; [by vm_compute|].
  apply list_elem_of_singleton in Hrow as ->. by vm_compute.
Defined.
